(** * The similarity-query core of [processor/app.py]

    A shallow embedding of the two request handlers of the image browser,
    [index] (text search) and [neighbors] (browse by example), together
    with the three SQL statements they send to the vector store and the
    database driver calls they make around them.

    The handlers talk to two collaborators: the CLIP text encoder and a
    PostgreSQL table [image_embeddings] reached through a database
    driver.  Both are modelled by a [world]: the table, a plan saying
    which driver calls raise, the log of every collaborator call made so
    far and the set of connections that are still open.  Handler code is
    written in a small state-and-exception monad over that world. *)

From Stdlib Require Import String Ascii.
From Stdlib Require Import List NArith ZArith Bool Arith Lia Sorted Permutation.
Import ListNotations.

Set Implicit Arguments.

(** ** Python strings *)

(** A Python [str] is a sequence of Unicode code points. *)
Definition str := list N.

Definition str_of (s : string) : str :=
  map N_of_ascii (list_ascii_of_string s).

Definition str_eqb (a b : str) : bool :=
  if list_eq_dec N.eq_dec a b then true else false.

(** The code points for which [str.isspace] holds; these are the ones
    [str.strip()] removes when it is called without argument. *)
Definition py_isspace (c : N) : bool :=
  ((9 <=? c) && (c <=? 13)
   || (28 <=? c) && (c <=? 32)
   || (c =? 133) || (c =? 160) || (c =? 5760)
   || (8192 <=? c) && (c <=? 8202)
   || (c =? 8232) || (c =? 8233) || (c =? 8239)
   || (c =? 8287) || (c =? 12288))%N.

Fixpoint lstrip (s : str) : str :=
  match s with
  | [] => []
  | c :: s' => if py_isspace c then lstrip s' else s
  end.

Definition rstrip (s : str) : str := rev (lstrip (rev s)).

(** [s.strip()] *)
Definition strip (s : str) : str := rstrip (lstrip s).

(** Truth value of a [str] in a condition: non-empty. *)
Definition str_truthy (s : str) : bool :=
  match s with [] => false | _ :: _ => true end.

(** [request.args.get('q', '')]: the parameter may be missing. *)
Definition args_get (q : option str) : str :=
  match q with Some s => s | None => [] end.

(** ** Exceptions and the handler monad *)

Inductive exn : Type :=
| StoreError     (* raised by a database driver call *)
| EncoderError   (* raised inside [clip.text_encoder] *)
| TypeError.     (* [list(x)] on something that is not iterable *)

Inductive result (A : Type) : Type :=
| Ok (a : A)
| Raise (e : exn).

Arguments Ok {A} a.
Arguments Raise {A} e.

(** ** Python values *)

(** Values that flow between the handlers and their collaborators: what a
    cell of the [embedding] column looks like once the driver has fetched
    it, and what is bound to the [%s::vector] parameter. *)
Inductive pyval (num : Type) : Type :=
| PyNone
| PyStr (s : str)
| PyList (xs : list num).

Arguments PyNone {num}.
Arguments PyStr {num} s.

(** What [clip.text_encoder] hands back. *)
Inductive pyobj (num : Type) : Type :=
| ObjNone                     (* no vector *)
| ObjArray (xs : list num)    (* an array: it has [tolist] *)
| ObjIter (xs : list num).    (* another iterable, without [tolist] *)

Arguments ObjNone {num}.

Inductive encoded (num : Type) : Type :=
| EncRaises
| EncReturns (o : pyobj num).

Arguments EncRaises {num}.

(** ** The collaborators

    The components of an embedding and the values the store's distance
    operator [<#>] reports are floating-point numbers; the handlers never
    look inside them, so both stay abstract, and so do the encoder and the
    arithmetic of the store. *)
Class Collaborators : Type := {
  num : Type;
  D : Type;
  (** the process-wide model [clip] *)
  text_encoder : str -> encoded num;
  (** [embedding <#> %s::vector] as the store evaluates it on a stored
      cell and the bound parameter *)
  distance : pyval num -> pyval num -> D;
  (** the comparison [ORDER BY ... ASC] sorts by *)
  leb : D -> D -> bool;
  (** [ORDER BY distance] names no second key: which of two rows that
      are reported at the same distance comes first is the store's
      choice, and nothing is assumed about it *)
  prefers : str * D -> str * D -> bool
}.

Section Processor.

Context {C : Collaborators}.

(** Truth value of [if embedding:]. *)
Definition truthy (v : pyval num) : bool :=
  match v with
  | PyNone => false
  | PyStr s => str_truthy s
  | PyList [] => false
  | PyList (_ :: _) => true
  end.

(** *** The table *)

Record row : Type := {
  file_name : str;
  embedding : pyval num
}.

(** *** The three statements of the source *)

Inductive statement : Type -> Type :=
| SelectEmbedding (name : str) : statement (pyval num)
    (* SELECT embedding FROM image_embeddings WHERE file_name = %s LIMIT 1 *)
| SelectNearest (v : pyval num) : statement (str * D)
    (* SELECT file_name, embedding <#> %s::vector AS distance
       FROM image_embeddings ORDER BY distance ASC LIMIT 30 *)
| SelectNearestExcept (v : pyval num) (name : str) : statement (str * D).
    (* the same with WHERE file_name != %s *)

Definition LIMIT : nat := 30.

(** [ORDER BY distance ASC].  [x] goes before [y] when it is reported
    strictly nearer, or at the same distance and the store prefers it. *)
Definition goes_before (x y : str * D) : bool :=
  leb (snd x) (snd y) && (negb (leb (snd y) (snd x)) || prefers x y).

Fixpoint insert_by (x : str * D) (l : list (str * D)) : list (str * D) :=
  match l with
  | [] => [x]
  | y :: l' => if goes_before x y then x :: l else y :: insert_by x l'
  end.

Fixpoint order_by_distance (l : list (str * D)) : list (str * D) :=
  match l with
  | [] => []
  | x :: l' => insert_by x (order_by_distance l')
  end.

(** The select list [file_name, embedding <#> v AS distance]. *)
Definition scored (v : pyval num) (tbl : list row) : list (str * D) :=
  map (fun r => (file_name r, distance (embedding r) v)) tbl.

(** [WHERE file_name != name] *)
Definition other_than (name : str) (tbl : list row) : list row :=
  filter (fun r => negb (str_eqb (file_name r) name)) tbl.

(** [WHERE file_name = name] *)
Definition named (name : str) (tbl : list row) : list row :=
  filter (fun r => str_eqb (file_name r) name) tbl.

Definition run_statement {A} (s : statement A) (tbl : list row) : list A :=
  match s in statement T return list T with
  | SelectEmbedding name => firstn 1 (map embedding (named name tbl))
  | SelectNearest v => firstn LIMIT (order_by_distance (scored v tbl))
  | SelectNearestExcept v name =>
      firstn LIMIT (order_by_distance (scored v (other_than name tbl)))
  end.

(** *** Collaborator calls and the world *)

Inductive call : Type :=
| Encode (text : str)
| Connect
| Cursor
| Execute {A : Type} (s : statement A)
| Fetchone
| Fetchall
| CloseCursor
| CloseConnection.

Definition is_store_call (c : call) : bool :=
  match c with Encode _ => false | _ => true end.

Definition is_nearest_query (c : call) : bool :=
  match c with
  | Execute (SelectNearest _) => true
  | Execute (SelectNearestExcept _ _) => true
  | _ => false
  end.

Record event : Type := {
  ev_call : call;
  ev_raised : bool
}.

Record world : Type := {
  image_embeddings : list row;      (* the table, in the store's row order *)
  faults : nat -> call -> bool;     (* does the k-th call, being [c], raise? *)
  log : list event;                 (* calls made so far, latest first *)
  open_conns : list nat;            (* connections not yet closed *)
  next_conn : nat
}.

Definition M (A : Type) : Type := world -> result A * world.

Definition ret {A} (a : A) : M A := fun w => (Ok a, w).

Definition raise {A} (e : exn) : M A := fun w => (Raise e, w).

Definition bind {A B} (m : M A) (k : A -> M B) : M B :=
  fun w =>
    match m w with
    | (Ok a, w') => k a w'
    | (Raise e, w') => (Raise e, w')
    end.

(** [try: body / except Exception: handler] *)
Definition try_except {A} (body : M A) (handler : exn -> M A) : M A :=
  fun w =>
    match body w with
    | (Ok a, w') => (Ok a, w')
    | (Raise e, w') => handler e w'
    end.

Notation "x <- m ;; k" := (bind m (fun x => k))
  (at level 61, m at next level, right associativity).
Notation "m ;;; k" := (bind m (fun _ => k))
  (at level 61, right associativity).

Definition note (c : call) (raised : bool) (w : world) : world :=
  {| image_embeddings := image_embeddings w;
     faults := faults w;
     log := {| ev_call := c; ev_raised := raised |} :: log w;
     open_conns := open_conns w;
     next_conn := next_conn w |}.

(** A driver call: it is logged, and either raises, as the fault plan of
    the world decides, or takes effect. *)
Definition store_call {A} (c : call) (effect : world -> A * world) : M A :=
  fun w =>
    if faults w (length (log w)) c
    then (Raise StoreError, note c true w)
    else let (a, w') := effect (note c false w) in (Ok a, w').

Record connection : Type := { conn_id : nat }.
Record cursor : Type := { cur_conn : connection }.
(** A cursor on which a statement has been executed holds its rows;
    [execute] hands that cursor on to [fetchone] and [fetchall]. *)
Record loaded (A : Type) : Type := { ld_cursor : cursor; ld_rows : list A }.

(** [psycopg2.connect(SUPABASE_DB_URL)] *)
Definition connect : M connection :=
  store_call Connect (fun w =>
    ({| conn_id := next_conn w |},
     {| image_embeddings := image_embeddings w;
        faults := faults w;
        log := log w;
        open_conns := next_conn w :: open_conns w;
        next_conn := S (next_conn w) |})).

(** [conn.cursor()] *)
Definition new_cursor (conn : connection) : M cursor :=
  store_call Cursor (fun w => ({| cur_conn := conn |}, w)).

(** [cur.execute(sql, params)] *)
Definition execute {A} (cur : cursor) (s : statement A) : M (loaded A) :=
  store_call (Execute s) (fun w =>
    ({| ld_cursor := cur; ld_rows := run_statement s (image_embeddings w) |}, w)).

(** [cur.fetchone()] *)
Definition fetchone {A} (cur : loaded A) : M (option A) :=
  store_call Fetchone (fun w => (hd_error (ld_rows cur), w)).

(** [cur.fetchall()] *)
Definition fetchall {A} (cur : loaded A) : M (list A) :=
  store_call Fetchall (fun w => (ld_rows cur, w)).

(** [cur.close()] *)
Definition close_cursor (cur : cursor) : M unit :=
  store_call CloseCursor (fun w => (tt, w)).

Definition remove_conn (c : nat) (l : list nat) : list nat :=
  filter (fun c' => negb (Nat.eqb c' c)) l.

(** [conn.close()] *)
Definition close_connection (conn : connection) : M unit :=
  store_call CloseConnection (fun w =>
    (tt,
     {| image_embeddings := image_embeddings w;
        faults := faults w;
        log := log w;
        open_conns := remove_conn (conn_id conn) (open_conns w);
        next_conn := next_conn w |})).

(** [clip.text_encoder(query)] *)
Definition clip_text_encoder (query : str) : M (pyobj num) :=
  fun w =>
    match text_encoder query with
    | EncRaises => (Raise EncoderError, note (Encode query) true w)
    | EncReturns o => (Ok o, note (Encode query) false w)
    end.

(** [text_embedding.tolist() if hasattr(text_embedding, 'tolist')
     else list(text_embedding)] *)
Definition to_embedding_list (text_embedding : pyobj num) : M (pyval num) :=
  match text_embedding with
  | ObjArray xs => ret (PyList xs)
  | ObjIter xs => ret (PyList xs)
  | ObjNone => raise TypeError
  end.

(** *** The handlers *)

(** What a handler passes to the template: the context of
    [render_template_string(HTML_TEMPLATE, images=..., query=...)]. *)
Record page : Type := {
  images : list str;
  query : option str
}.

Definition render_template_string (imgs : list str) (q : option str) : M page :=
  ret {| images := imgs; query := q |}.

(** Body of the [try] of [index]. *)
Definition index_nearest (embedding_list : pyval num) : M (list str) :=
  conn <- connect ;;
  cur <- new_cursor conn ;;
  cur' <- execute cur (SelectNearest embedding_list) ;;
  results <- fetchall cur' ;;
  let imgs := map fst results in
  close_cursor cur ;;;
  close_connection conn ;;;
  ret imgs.

Definition index (q : option str) : M page :=
  let query := strip (args_get q) in
  imgs <-
    (if str_truthy query then
       text_embedding <- clip_text_encoder query ;;
       embedding_list <- to_embedding_list text_embedding ;;
       try_except (index_nearest embedding_list) (fun _ => ret [])
     else ret []) ;;
  render_template_string imgs (Some query).

(** Body of the first [try] of [neighbors].  A fetched row is the
    1-tuple [(embedding,)], which is truthy whatever it holds, so
    [if row:] only tells a row from [None]; [row[0]] is its one cell. *)
Definition neighbors_lookup (name : str) : M (pyval num) :=
  conn <- connect ;;
  cur <- new_cursor conn ;;
  cur' <- execute cur (SelectEmbedding name) ;;
  row <- fetchone cur' ;;
  let emb := match row with Some e => e | None => PyNone end in
  close_cursor cur ;;;
  close_connection conn ;;;
  ret emb.

(** Body of the second [try] of [neighbors]. *)
Definition neighbors_nearest (emb : pyval num) (name : str) : M (list str) :=
  conn <- connect ;;
  cur <- new_cursor conn ;;
  cur' <- execute cur (SelectNearestExcept emb name) ;;
  results <- fetchall cur' ;;
  let imgs := map fst results in
  close_cursor cur ;;;
  close_connection conn ;;;
  ret imgs.

Definition neighbors (name : str) : M page :=
  emb <- try_except (neighbors_lookup name) (fun _ => ret PyNone) ;;
  imgs <-
    (if truthy emb then
       try_except (neighbors_nearest emb name) (fun _ => ret [])
     else ret []) ;;
  render_template_string imgs None.


(** The two routes of the application: [GET /?q=...] and
    [GET /neighbors/<file_name>]. *)
Inductive request : Type :=
| GetIndex (q : option str)
| GetNeighbors (name : str).

Definition route (r : request) : M page :=
  match r with
  | GetIndex q => index q
  | GetNeighbors name => neighbors name
  end.

(** ** Vocabulary of the properties *)

Definition by_distance (a b : str * D) : Prop := leb (snd a) (snd b) = true.

(** [tied d x]: the store reports for [x] a distance that compares equal
    to [d]. *)
Definition tied (d : D) (x : str * D) : bool :=
  leb d (snd x) && leb (snd x) d.

(** [imgs] lists the names of rows of [eligible], nearest to [v] first,
    rows at the same distance in the order of [eligible]. *)
Definition ranked (v : pyval num) (eligible : list row) (imgs : list str) : Prop :=
  exists rows,
    imgs = map fst rows /\
    incl rows (scored v eligible) /\
    StronglySorted by_distance rows /\
    forall d, exists k,
      filter (tied d) rows = firstn k (filter (tied d) (scored v eligible)).

(** [imgs] lists the names of rows of [eligible], nearest to [v] first;
    nothing is said about rows at the same distance. *)
Definition sorted_by_distance (v : pyval num) (eligible : list row)
    (imgs : list str) : Prop :=
  exists rows,
    imgs = map fst rows /\
    incl rows (scored v eligible) /\
    StronglySorted by_distance rows.

(** The vector a text query is resolved to, when there is one. *)
Definition text_query_vector (q : option str) : option (pyval num) :=
  let query := strip (args_get q) in
  if str_truthy query then
    match text_encoder query with
    | EncReturns (ObjArray xs) => Some (PyList xs)
    | EncReturns (ObjIter xs) => Some (PyList xs)
    | EncReturns ObjNone => None
    | EncRaises => None
    end
  else None.

(** The row the lookup of [neighbors] finds. *)
Definition lookup_row (name : str) (tbl : list row) : option row :=
  hd_error (named name tbl).

(** No driver call raises from now on. *)
Definition available (w : world) : Prop :=
  forall k c, faults w (k + length (log w)) c = false.

(** Two worlds hold the same table and their stores behave alike from now
    on; their logs and connections may differ. *)
Definition same_store (w1 w2 : world) : Prop :=
  image_embeddings w1 = image_embeddings w2 /\
  forall k c,
    faults w1 (k + length (log w1)) c = faults w2 (k + length (log w2)) c.

(** Some driver call among [evs] raised. *)
Definition store_raised (evs : list event) : bool :=
  existsb (fun e => is_store_call (ev_call e) && ev_raised e) evs.

Definition store_event (e : event) : Prop :=
  is_store_call (ev_call e) = true.

(** Some driver call raises at or after the current position of the
    fault plan. *)
Definition faulty (w : world) : Prop :=
  exists k c, faults w (k + length (log w)) c = true.

Definition quiet (evs : list event) : Prop :=
  Forall (fun e => ev_raised e = false) evs.

Definition no_nearest_query (evs : list event) : Prop :=
  Forall (fun e => is_nearest_query (ev_call e) = false) evs.

(** The value the lookup of [neighbors] leaves in [embedding]. *)
Definition found_embedding (name : str) (tbl : list row) : pyval num :=
  match hd_error (run_statement (SelectEmbedding name) tbl) with
  | Some e => e
  | None => PyNone
  end.

(** What running one [try] body around statement [s] does to the world
    and which result it gives, [expected] being its value when no call
    raises. *)
Definition block_outcome {A B} (s : statement A) (expected : B)
    (w : world) (out : result B * world) : Prop :=
  let w' := snd out in
  image_embeddings w' = image_embeddings w /\
  faults w' = faults w /\
  exists new,
    log w' = new ++ log w /\
    Forall store_event new /\
    Forall (fun e => is_nearest_query (ev_call e) = true ->
                     is_nearest_query (Execute s) = true) new /\
    ((fst out = Ok expected /\
      quiet new /\
      open_conns w' = remove_conn (next_conn w) (open_conns w))
     \/
     (fst out = Raise StoreError /\
      store_raised new = true /\
      faulty w /\
      ((faults w (length (log w)) Connect = true /\
        open_conns w' = open_conns w) \/
       (faults w (length (log w)) Connect = false /\
        open_conns w' = next_conn w :: open_conns w)))).

(** The [query] a route echoes to the template. *)
Definition echo (r : request) : option str :=
  match r with
  | GetIndex q => Some (strip (args_get q))
  | GetNeighbors _ => None
  end.

(** The vector a request is resolved to, when there is one: the encoded
    text, or the stored embedding of the exemplar if it is truthy. *)
Definition query_vector (r : request) (tbl : list row) : option (pyval num) :=
  match r with
  | GetIndex q => text_query_vector q
  | GetNeighbors name =>
      match lookup_row name tbl with
      | Some x => if truthy (embedding x) then Some (embedding x) else None
      | None => None
      end
  end.

(** The rows a request may return. *)
Definition eligible (r : request) (tbl : list row) : list row :=
  match r with
  | GetIndex _ => tbl
  | GetNeighbors name => other_than name tbl
  end.

(** Two runs that start in worlds with the same store end in worlds with
    the same store, and both return related values or both raise the same
    exception. *)
Definition sim {A} (R : A -> A -> Prop) (m1 m2 : M A) : Prop :=
  forall w1 w2, same_store w1 w2 ->
    same_store (snd (m1 w1)) (snd (m2 w2)) /\
    match fst (m1 w1), fst (m2 w2) with
    | Ok a1, Ok a2 => R a1 a2
    | Raise e1, Raise e2 => e1 = e2
    | _, _ => False
    end.

End Processor.

Arguments run_statement : simpl never.
Arguments remove_conn : simpl never.

(** ** A small instance

    Integer components, the negated inner product as distance, and an
    encoder that knows a few words. *)
Module Sample.

Fixpoint inner (a b : list Z) : Z :=
  match a, b with
  | x :: a', y :: b' => (x * y + inner a' b')%Z
  | _, _ => 0%Z
  end.

Definition neg_inner (cell param : pyval Z) : Z :=
  match cell, param with
  | PyList a, PyList b => (- inner a b)%Z
  | _, _ => 0%Z
  end.

Definition encoder (text : str) : encoded Z :=
  if str_eqb text (str_of "red car") then EncReturns (ObjArray [3; 1]%Z)
  else if str_eqb text (str_of "boom") then EncRaises
  else if str_eqb text (str_of "void") then EncReturns ObjNone
  else EncReturns (ObjIter [0; 1]%Z).

Definition collaborators : Collaborators :=
  {| num := Z; D := Z; text_encoder := encoder;
     distance := neg_inner; leb := Z.leb;
     prefers := fun _ _ => true |}.

Definition img (name : string) (e : pyval Z) : row (C := collaborators) :=
  Build_row (C := collaborators) (str_of name) e.

(** [b.png] and [c.png] are equally far from every query on the first
    axis; [e.png] has no embedding. *)
Definition gallery : list (row (C := collaborators)) :=
  [ img "a.png" (PyList [1; 0]%Z);
    img "b.png" (PyList [2; 5]%Z);
    img "c.png" (PyList [2; 5]%Z);
    img "d.png" (PyList [4; 1]%Z);
    img "e.png" PyNone ].

Definition world_with (tbl : list (row (C := collaborators)))
    (plan : nat -> call (C := collaborators) -> bool) : world :=
  Build_world (C := collaborators) tbl plan [] [] 0.

Definition no_fault (k : nat) (c : call (C := collaborators)) : bool := false.

(** The store accepts connections but rejects every statement. *)
Definition execute_fails (k : nat) (c : call (C := collaborators)) : bool :=
  match c with Execute _ => true | _ => false end.

(** The store is down: connecting raises. *)
Definition connect_fails (k : nat) (c : call (C := collaborators)) : bool :=
  match c with Connect => true | _ => false end.

(** Only the second connection of a request is refused. *)
Definition second_connect_fails (k : nat) (c : call (C := collaborators)) : bool :=
  match c with Connect => Nat.ltb 0 k | _ => false end.

Definition healthy : world := world_with gallery no_fault.
Definition rejecting : world := world_with gallery execute_fails.
Definition down : world := world_with gallery connect_fails.

(** Forty rows, all at the same distance. *)
Definition crowd : list (row (C := collaborators)) :=
  map (fun n => Build_row (C := collaborators) [N.of_nat n] (PyList [1; 1]%Z))
      (seq 48 40).

Definition crowded : world := world_with crowd no_fault.

(** The first thirty rows of [crowd], as a text query sees them. *)
Definition crowd_page : page :=
  {| images := map (fun n => [N.of_nat n]) (seq 48 30);
     query := Some (str_of "red car") |}.

Definition red_car : option str := Some (str_of "red car").
Definition boom : option str := Some (str_of "boom").
Definition blank : option str := Some (str_of "   ").

Definition events (new : list (bool * call (C := collaborators))) : list event :=
  map (fun x => {| ev_call := snd x; ev_raised := fst x |}) new.

End Sample.

(** ** The template and the driver protocol *)

(** *** The dynamic part of [HTML_TEMPLATE]

    The template prints the echoed query into the search box and loops
    over [images]; everything else in it is fixed text.  A rendered page
    is kept as the text of the search box and the thumbnails in page
    order.  A thumbnail records the file name the template hands to
    [url_for] for its link and for its picture; how Flask turns a name
    into a URL, and which URLs it routes back to [neighbors], is not
    modelled. *)
Record thumbnail : Type := {
  thumb_href : str;        (* url_for('neighbors', file_name=file_name) *)
  thumb_src : str;         (* url_for('static', filename=file_name) *)
  thumb_alt : str          (* alt="{{ file_name }}" *)
}.

Record document : Type := {
  search_value : str;      (* value="{{ query|default('') }}" *)
  thumbnails : list thumbnail
}.

(** A template variable is undefined when the context does not pass it;
    a variable that is passed holds a Python value, [None] included. *)
Inductive jinja_value : Type :=
| Undefined
| Value (v : option str).

(** The filter [default(d)]: only an undefined variable is replaced. *)
Definition jinja_default (x : jinja_value) (d : str) : jinja_value :=
  match x with
  | Undefined => Value (Some d)
  | Value v => Value v
  end.

(** [{{ x }}]: the [str()] of the value. *)
Definition jinja_print (x : jinja_value) : str :=
  match x with
  | Undefined => []
  | Value None => str_of "None"
  | Value (Some s) => s
  end.

Definition HTML_TEMPLATE (p : page) : document :=
  {| search_value := jinja_print (jinja_default (Value (query p)) []);
     thumbnails :=
       map (fun file_name =>
              {| thumb_href := file_name;
                 thumb_src := file_name;
                 thumb_alt := file_name |})
           (images p) |}.

Section Protocol.

Context {C : Collaborators}.

(** The calls a [try] body makes on the driver, in program order. *)
Definition protocol {A} (s : statement A) (fetch : call) : list call :=
  [Connect; Cursor; Execute s; fetch; CloseCursor; CloseConnection].

Definition driver_calls (evs : list event) : list event :=
  filter (fun e => is_store_call (ev_call e)) evs.

Definition encoder_calls (evs : list event) : list event :=
  filter (fun e => negb (is_store_call (ev_call e))) evs.

(** [evs], latest first, are the first calls of [calls] in order: at
    least one, none but the latest raised, and all of [calls] unless the
    latest raised. *)
Definition stops_at_first_raise (calls : list call) (evs : list event) : Prop :=
  exists n,
    1 <= n <= length calls /\
    map ev_call (rev evs) = firstn n calls /\
    quiet (tl evs) /\
    (quiet evs -> n = length calls).

Definition connect_ok : event := {| ev_call := Connect; ev_raised := false |}.
Definition connect_raised : event := {| ev_call := Connect; ev_raised := true |}.

(** One [try] body taking the world from [w] to [w'] with the calls
    [new]: the connection it opens is closed when nothing raised, was
    never opened when [connect] raised, and is left open otherwise. *)
Definition block_run (calls : list call) (w : world) (new : list event)
    (w' : world) : Prop :=
  log w' = new ++ log w /\
  Forall store_event new /\
  stops_at_first_raise calls new /\
  ((quiet new /\
    open_conns w' = remove_conn (next_conn w) (open_conns w) /\
    next_conn w' = S (next_conn w))
   \/
   (new = [connect_raised] /\
    open_conns w' = open_conns w /\
    next_conn w' = next_conn w)
   \/
   (store_raised new = true /\ In connect_ok new /\
    open_conns w' = next_conn w :: open_conns w /\
    next_conn w' = S (next_conn w))).

(** Connection identifiers in use are older than the next one. *)
Definition conns_fresh (w : world) : Prop :=
  Forall (fun c => c < next_conn w) (open_conns w).

(** Leaving a handler drops its frame.  The locals [conn] and [cur] are
    the only references to the connections the handler made: none is
    stored, returned or kept by the exception, which is unbound at the
    end of the [except] clause.  The driver closes a connection whose
    last reference goes, so what the handler opened after [entry] and did
    not close itself is closed now. *)
Definition drop_frame (entry exit : world) : world :=
  {| image_embeddings := image_embeddings exit;
     faults := faults exit;
     log := log exit;
     open_conns :=
       filter (fun c => Nat.ltb c (next_conn entry)) (open_conns exit);
     next_conn := next_conn exit |}.

(** A request from the call of its handler to after the handler has
    returned or raised. *)
Definition serve (r : request) : M page :=
  fun w => let (res, w') := route r w in (res, drop_frame w w').

(** [imgs] are the names of a nearest part of [eligible]: no row left
    out is reported nearer to [v] than a row that is in. *)
Definition nearest_cut (v : pyval num) (eligible : list row)
    (imgs : list str) : Prop :=
  exists rows rest,
    imgs = map fst rows /\
    Permutation (rows ++ rest) (scored v eligible) /\
    forall x y, In x rows -> In y rest -> by_distance x y.

(** The full answer of the store to a resolved request. *)
Definition store_answer (r : request) (v : pyval num) (tbl : list row) : list str :=
  map fst (firstn LIMIT (order_by_distance (scored v (eligible r tbl)))).

End Protocol.

(** More worlds for the sample instance. *)
Module Outage.

Import Sample.

(** The statement of the second connection is rejected. *)
Definition nearest_fails (k : nat) (c : call (C := collaborators)) : bool :=
  is_nearest_query c.

Definition half_open : world := world_with gallery nearest_fails.

End Outage.

(** The sample instance with a store that returns rows at the same
    distance latest first. *)
Module Lifo.

Definition collaborators : Collaborators :=
  {| num := Z; D := Z; text_encoder := Sample.encoder;
     distance := Sample.neg_inner; leb := Z.leb;
     prefers := fun _ _ => false |}.

Definition img (name : string) (e : pyval Z) : row (C := collaborators) :=
  Build_row (C := collaborators) (str_of name) e.

(** The rows of [Sample.gallery]. *)
Definition gallery : list (row (C := collaborators)) :=
  [ img "a.png" (PyList [1; 0]%Z);
    img "b.png" (PyList [2; 5]%Z);
    img "c.png" (PyList [2; 5]%Z);
    img "d.png" (PyList [4; 1]%Z);
    img "e.png" PyNone ].

Definition healthy : world :=
  Build_world (C := collaborators) gallery (fun _ _ => false) [] [] 0.

End Lifo.

(** ** Facts about [strip] *)

Lemma lstrip_blank (s : str) :
  forallb py_isspace s = true -> lstrip s = [].
Proof.
  induction s as [|c s IH]; simpl; [reflexivity|].
  intros H. apply andb_true_iff in H as [Hc Hs].
  rewrite Hc. now apply IH.
Qed.

Lemma strip_blank (s : str) :
  forallb py_isspace s = true -> strip s = [].
Proof.
  intros H. unfold strip, rstrip. now rewrite (lstrip_blank s H).
Qed.

Lemma lstrip_nil_blank (s : str) :
  lstrip s = [] -> forallb py_isspace s = true.
Proof.
  induction s as [|c s IH]; simpl; [reflexivity|].
  destruct (py_isspace c); [exact IH | discriminate].
Qed.

Lemma strip_nil_blank (s : str) :
  strip s = [] -> forallb py_isspace s = true.
Proof.
  unfold strip, rstrip. intros H.
  apply lstrip_nil_blank.
  assert (Hr : lstrip (rev (lstrip s)) = []).
  { rewrite <- (rev_involutive (lstrip (rev (lstrip s)))), H. reflexivity. }
  apply lstrip_nil_blank in Hr.
  rewrite forallb_forall in Hr.
  assert (Hall : forallb py_isspace (lstrip s) = true).
  { apply forallb_forall. intros c Hc. apply Hr. now apply in_rev in Hc. }
  clear H Hr. induction s as [|c s IH]; simpl in *; [reflexivity|].
  destruct (py_isspace c) eqn:Ec; [now apply IH|].
  simpl in Hall. rewrite Ec in Hall. discriminate.
Qed.

Lemma str_eqb_eq (a b : str) : str_eqb a b = true <-> a = b.
Proof.
  unfold str_eqb. destruct (list_eq_dec N.eq_dec a b); split; congruence.
Qed.

Section Facts.

Context {C : Collaborators}.

(** ** Facts about the statements *)

Lemma insert_by_perm x l : Permutation (insert_by x l) (x :: l).
Proof.
  induction l as [|y l IH]; simpl; [constructor; constructor|].
  destruct (goes_before x y); [reflexivity|].
  rewrite IH. apply perm_swap.
Qed.

Lemma order_by_distance_perm l : Permutation (order_by_distance l) l.
Proof.
  induction l as [|x l IH]; simpl; [constructor|].
  rewrite insert_by_perm. now constructor.
Qed.

Lemma firstn_filter_prefix {A} (p : A -> bool) n (l : list A) :
  exists k, filter p (firstn n l) = firstn k (filter p l).
Proof.
  revert n. induction l as [|x l IH]; intros [|n]; simpl;
    try (now exists 0).
  destruct (IH n) as [k Hk]. destruct (p x).
  - exists (S k). simpl. now rewrite Hk.
  - now exists k.
Qed.

Lemma firstn_incl {A} n (l : list A) : incl (firstn n l) l.
Proof.
  revert n. induction l as [|x l IH]; intros [|n]; simpl; intros y Hy;
    try contradiction.
  destruct Hy as [<-|Hy]; [now left | right; now apply (IH n)].
Qed.

Lemma firstn_strongly_sorted {A} (R : A -> A -> Prop) n (l : list A) :
  StronglySorted R l -> StronglySorted R (firstn n l).
Proof.
  intros H. revert n. induction H as [|x l Hs IH Hall]; intros [|n]; simpl;
    try constructor.
  - apply IH.
  - rewrite Forall_forall in *. intros y Hy. apply Hall.
    now apply (firstn_incl n l).
Qed.

(** ** Behaviour of the [try] bodies *)

Lemma remove_conn_head c l : remove_conn c (c :: l) = remove_conn c l.
Proof. unfold remove_conn. simpl. now rewrite Nat.eqb_refl. Qed.

Ltac log_prefix l base :=
  lazymatch l with
  | base => constr:(@nil event)
  | ?e :: ?l' => let p := log_prefix l' base in constr:(e :: p)
  end.

Ltac give_new :=
  lazymatch goal with
  | |- exists new, ?l = new ++ ?base /\ _ =>
      let p := log_prefix l base in exists p; split; [reflexivity|]
  end.

Ltac fault_step :=
  match goal with
  | |- context [faults ?w ?k ?c] =>
      let E := fresh "E" in destruct (faults w k c) eqn:E; cbn
  end.

Ltac name_fault :=
  match goal with
  | E : faults ?w _ ?c = true |- faulty ?w =>
      unfold faulty;
      first [ exists 0, c; exact E | exists 1, c; exact E
            | exists 2, c; exact E | exists 3, c; exact E
            | exists 4, c; exact E | exists 5, c; exact E ]
  end.

Ltac leaf :=
  repeat split; try reflexivity; give_new;
  split; [repeat constructor|];
  split; [repeat constructor; cbn; congruence|];
  first
    [ left; repeat split; try reflexivity;
      [ repeat constructor | cbn; apply remove_conn_head ]
    | right; repeat split; try reflexivity;
      [ name_fault | (left; now split) || (right; now split) ] ].

Ltac walk :=
  unfold block_outcome, found_embedding, quiet, bind, connect, new_cursor, execute, fetchone,
    fetchall, close_cursor, close_connection, store_call, ret;
  cbn; repeat fault_step; leaf.

Lemma index_nearest_outcome v w :
  block_outcome (SelectNearest v)
    (map fst (run_statement (SelectNearest v) (image_embeddings w)))
    w (index_nearest v w).
Proof. unfold index_nearest. walk. Qed.

Lemma neighbors_nearest_outcome v name w :
  block_outcome (SelectNearestExcept v name)
    (map fst (run_statement (SelectNearestExcept v name) (image_embeddings w)))
    w (neighbors_nearest v name w).
Proof. unfold neighbors_nearest. walk. Qed.

Lemma neighbors_lookup_outcome name w :
  block_outcome (SelectEmbedding name)
    (found_embedding name (image_embeddings w)) w (neighbors_lookup name w).
Proof. unfold neighbors_lookup. walk. Qed.

(** ** Logs and fault plans *)

Lemma store_raised_app (a b : list event) :
  store_raised (a ++ b) = store_raised a || store_raised b.
Proof. apply existsb_app. Qed.

Lemma quiet_not_raised (evs : list event) :
  quiet evs -> store_raised evs = false.
Proof.
  induction 1 as [|e evs He _ IH]; [reflexivity|].
  simpl. rewrite He, IH. now rewrite andb_false_r.
Qed.

Lemma quiet_app (a b : list event) : quiet a -> quiet b -> quiet (a ++ b).
Proof. intros Ha Hb. apply Forall_app. now split. Qed.

Lemma faulty_later (w w' : world) new :
  faults w' = faults w -> log w' = new ++ log w -> faulty w' -> faulty w.
Proof.
  intros Hf Hl (k & c & H). exists (k + length new), c.
  rewrite Hf, Hl, length_app in H.
  now rewrite <- Nat.add_assoc.
Qed.

Lemma available_not_faulty (w : world) : available w -> ~ faulty w.
Proof. intros Ha (k & c & H). rewrite Ha in H. discriminate. Qed.

Lemma found_embedding_row name (tbl : list row) :
  found_embedding name tbl =
  match lookup_row name tbl with Some r => embedding r | None => PyNone end.
Proof.
  unfold found_embedding, lookup_row, run_statement.
  destruct (named name tbl); reflexivity.
Qed.

Lemma lookup_row_none name (tbl : list row) :
  lookup_row name tbl = None <->
  forall r, In r tbl -> file_name r <> name.
Proof.
  unfold lookup_row, named. split.
  - intros H r Hr Heq.
    assert (Hin : In r (filter (fun r => str_eqb (file_name r) name) tbl))
      by (apply filter_In; split; [exact Hr | now apply str_eqb_eq]).
    destruct (filter _ tbl); [destruct Hin | discriminate].
  - intros H.
    destruct (filter (fun r => str_eqb (file_name r) name) tbl) as [|r l] eqn:E;
      [reflexivity|].
    assert (Hin : In r (filter (fun r => str_eqb (file_name r) name) tbl))
      by (rewrite E; now left).
    apply filter_In in Hin as [Hr Heq]. apply str_eqb_eq in Heq.
    now destruct (H r Hr).
Qed.

(** [text_query_vector] is what lines 73-74 of [index] compute. *)
Lemma text_query_vector_resolves q v w :
  text_query_vector q = Some v <->
  str_truthy (strip (args_get q)) = true /\
  fst (bind (clip_text_encoder (strip (args_get q))) to_embedding_list w) = Ok v.
Proof.
  unfold text_query_vector, bind, clip_text_encoder.
  destruct (str_truthy (strip (args_get q))); [|split; [discriminate|now intros []]].
  destruct (text_encoder (strip (args_get q))) as [|[|xs|xs]]; simpl;
    (split; [intros [= <-]; now split | intros [_ [= <-]]; reflexivity])
    || (split; [discriminate | intros [_ H]; discriminate]).
Qed.

(** ** Behaviour of the handlers *)

(** A [try] body whose handler falls back to [dflt]. *)
Lemma guarded_outcome {A B} (s : statement A) (expected dflt : B)
    (body : M B) (w : world) :
  block_outcome s expected w (body w) ->
  exists b,
    try_except body (fun _ => ret dflt) w = (Ok b, snd (body w)) /\
    ((b = expected /\ fst (body w) = Ok expected) \/
     (b = dflt /\ fst (body w) = Raise StoreError)).
Proof.
  intros (_ & _ & new & _ & _ & _ & H). unfold try_except, ret.
  destruct (body w) as [r w']. simpl in *.
  destruct H as [(-> & _) | (-> & _)]; eauto.
Qed.

Lemma index_blank q w :
  str_truthy (strip (args_get q)) = false ->
  index q w = (Ok {| images := []; query := Some (strip (args_get q)) |}, w).
Proof. intros H. unfold index, bind. now rewrite H. Qed.

Lemma index_encoder_raises q w :
  str_truthy (strip (args_get q)) = true ->
  text_encoder (strip (args_get q)) = EncRaises ->
  index q w = (Raise EncoderError, note (Encode (strip (args_get q))) true w).
Proof.
  intros H E. unfold index, bind, clip_text_encoder. now rewrite H, E.
Qed.

Lemma index_no_vector q w :
  str_truthy (strip (args_get q)) = true ->
  text_encoder (strip (args_get q)) = EncReturns ObjNone ->
  index q w = (Raise TypeError, note (Encode (strip (args_get q))) false w).
Proof.
  intros H E. unfold index, bind, clip_text_encoder. now rewrite H, E.
Qed.

(** What a text query that has a vector does. *)
Lemma index_run q v w :
  text_query_vector q = Some v ->
  let query := strip (args_get q) in
  let tbl := image_embeddings w in
  exists imgs w' new,
    index q w = (Ok {| images := imgs; query := Some query |}, w') /\
    image_embeddings w' = tbl /\ faults w' = faults w /\
    log w' = new ++ {| ev_call := Encode query; ev_raised := false |} :: log w /\
    Forall store_event new /\
    ((imgs = map fst (run_statement (SelectNearest v) tbl) /\ quiet new) \/
     (imgs = [] /\ store_raised new = true /\ faulty w)).
Proof.
  intros Hv query tbl. unfold text_query_vector in Hv. fold query in Hv.
  destruct (str_truthy query) eqn:Ht; [|discriminate].
  destruct (text_encoder query) as [|o] eqn:Eo; [discriminate|].
  assert (Hl : to_embedding_list o = ret v)
    by (destruct o; inversion Hv; reflexivity).
  set (w1 := note (Encode query) false w).
  pose proof (index_nearest_outcome v w1) as Hb.
  destruct (@guarded_outcome _ _ _ _ [] (index_nearest v) w1 Hb)
    as (imgs & Ht' & Hcase).
  destruct Hb as (Htbl & Hf & new & Hlog & Hev & _ & Hb).
  exists imgs, (snd (index_nearest v w1)), new.
  split; [|split; [exact Htbl|split; [exact Hf|split; [exact Hlog|split; [exact Hev|]]]]].
  - unfold index, bind, clip_text_encoder. fold query. rewrite Ht, Eo, Hl.
    unfold ret at 1. fold w1. rewrite Ht'. reflexivity.
  - destruct Hb as [(Hr & Hq & _) | (Hr & Hs & Hfa & _)];
      destruct Hcase as [(-> & Hr') | (-> & Hr')]; try congruence.
    + left. split; [reflexivity|exact Hq].
    + right. split; [reflexivity|]. split; [exact Hs|].
      apply (@faulty_later w w1 [{| ev_call := Encode query; ev_raised := false |}]);
        [reflexivity | reflexivity | exact Hfa].
Qed.

(** The connection of a text query is closed when no call raises, and
    stays open when a call after [connect] raises. *)
Lemma index_connection q v w :
  text_query_vector q = Some v ->
  let w1 := note (Encode (strip (args_get q))) false w in
  let w' := snd (index q w) in
  (fst (index_nearest v w1) = Ok (map fst (run_statement (SelectNearest v) (image_embeddings w))) /\
   open_conns w' = remove_conn (next_conn w) (open_conns w))
  \/
  (fst (index_nearest v w1) = Raise StoreError /\
   faults w (S (length (log w))) Connect = true /\
   open_conns w' = open_conns w)
  \/
  (fst (index_nearest v w1) = Raise StoreError /\
   faults w (S (length (log w))) Connect = false /\
   open_conns w' = next_conn w :: open_conns w).
Proof.
  intros Hv w1 w'.
  assert (Hw : w' = snd (index_nearest v w1)).
  { unfold w', index, bind, clip_text_encoder.
    unfold text_query_vector in Hv.
    destruct (str_truthy (strip (args_get q))); [|discriminate].
    destruct (text_encoder (strip (args_get q))) as [|o]; [discriminate|].
    assert (Hl : to_embedding_list o = ret v)
      by (destruct o; inversion Hv; reflexivity).
    rewrite Hl. unfold ret at 1. fold w1. unfold try_except, ret.
    destruct (index_nearest v w1) as [[imgs|e] w2]; reflexivity. }
  rewrite Hw.
  destruct (index_nearest_outcome v w1) as (_ & _ & new & _ & _ & _ & H).
  destruct H as [(Hr & _ & Ho) | (Hr & _ & _ & [[Hc Ho] | [Hc Ho]])].
  - left. now split.
  - right. left. now repeat split.
  - right. right. now repeat split.
Qed.

(** What an exemplar query does, by the four ways it can go. *)
Lemma neighbors_run name w :
  let tbl := image_embeddings w in
  let found := found_embedding name tbl in
  exists imgs w' new,
    neighbors name w = (Ok {| images := imgs; query := None |}, w') /\
    image_embeddings w' = tbl /\ faults w' = faults w /\
    log w' = new ++ log w /\ Forall store_event new /\
    ((fst (neighbors_lookup name w) = Raise StoreError /\ imgs = [] /\
      store_raised new = true /\ faulty w /\ no_nearest_query new)
     \/
     (fst (neighbors_lookup name w) = Ok found /\ truthy found = false /\
      imgs = [] /\ quiet new /\ no_nearest_query new)
     \/
     (fst (neighbors_lookup name w) = Ok found /\ truthy found = true /\
      imgs = [] /\ store_raised new = true /\ faulty w)
     \/
     (fst (neighbors_lookup name w) = Ok found /\ truthy found = true /\
      imgs = map fst (run_statement (SelectNearestExcept found name) tbl) /\
      quiet new)).
Proof.
  intros tbl found.
  pose proof (neighbors_lookup_outcome name w) as Hb1. fold tbl found in Hb1.
  destruct (@guarded_outcome _ _ _ _ PyNone (neighbors_lookup name) w Hb1)
    as (emb & Ht1 & Hcase1).
  unfold block_outcome in Hb1.
  set (w1 := snd (neighbors_lookup name w)) in *.
  destruct Hb1 as (Htbl1 & Hf1 & new1 & Hlog1 & Hev1 & Hnn1 & Hb1).
  assert (Hno : no_nearest_query new1).
  { unfold no_nearest_query. eapply Forall_impl; [|exact Hnn1].
    intros e He. cbn in He. destruct (is_nearest_query (ev_call e)); [|reflexivity].
    symmetry. now apply He. }
  assert (Hskip : truthy emb = false ->
            neighbors name w = (Ok {| images := []; query := None |}, w1)).
  { intros Hfalse. unfold neighbors, bind. rewrite Ht1, Hfalse. reflexivity. }
  destruct Hcase1 as [(-> & Hr1) | (-> & Hr1)].
  - destruct Hb1 as [(_ & Hq1 & _) | (Hr1' & _)]; [|congruence].
    destruct (truthy found) eqn:Htruthy.
    + pose proof (neighbors_nearest_outcome found name w1) as Hb2.
      destruct (@guarded_outcome _ _ _ _ [] (neighbors_nearest found name) w1 Hb2)
        as (imgs & Ht2 & Hcase2).
      destruct Hb2 as (Htbl2 & Hf2 & new2 & Hlog2 & Hev2 & _ & Hb2).
      exists imgs, (snd (neighbors_nearest found name w1)), (new2 ++ new1).
      split; [|split; [|split; [|split; [|split]]]].
      * unfold neighbors, bind. rewrite Ht1, Htruthy, Ht2. reflexivity.
      * now rewrite Htbl2.
      * now rewrite Hf2.
      * now rewrite Hlog2, Hlog1, app_assoc.
      * apply Forall_app. now split.
      * right. right.
        destruct Hb2 as [(Hr2 & Hq2 & _) | (Hr2 & Hs2 & Hfa2 & _)];
          destruct Hcase2 as [(-> & Hr2') | (-> & Hr2')]; try congruence.
        -- right. repeat split; try assumption.
           ++ now rewrite Htbl1.
           ++ now apply quiet_app.
        -- left. repeat split; try assumption.
           ++ rewrite store_raised_app, Hs2. reflexivity.
           ++ now apply (@faulty_later w w1 new1).
    + exists [], w1, new1. rewrite (Hskip eq_refl).
      repeat split; try assumption.
      right. left. repeat split; assumption.
  - destruct Hb1 as [(Hr1' & _) | (_ & Hs1 & Hfa1 & _)]; [congruence|].
    exists [], w1, new1. rewrite (Hskip eq_refl).
    repeat split; try assumption.
    left. repeat split; assumption.
Qed.

(** Every request extends the log and leaves the store as it was. *)
Lemma route_extends r w :
  exists new,
    log (snd (route r w)) = new ++ log w /\
    image_embeddings (snd (route r w)) = image_embeddings w /\
    faults (snd (route r w)) = faults w.
Proof.
  destruct r as [q|name]; simpl.
  - destruct (text_query_vector q) as [v|] eqn:Hv.
    + destruct (index_run q w Hv) as (imgs & w' & new & -> & Ht & Hf & Hl & _).
      simpl. rewrite Hl.
      exists (new ++ [{| ev_call := Encode (strip (args_get q)); ev_raised := false |}]).
      now rewrite <- app_assoc.
    + unfold text_query_vector in Hv.
      destruct (str_truthy (strip (args_get q))) eqn:Ht;
        [|rewrite (index_blank q w Ht); now exists []].
      destruct (text_encoder (strip (args_get q))) as [|[|xs|xs]] eqn:Eo;
        try discriminate.
      * rewrite (index_encoder_raises q w Ht Eo). simpl. now eexists [_].
      * rewrite (index_no_vector q w Ht Eo). simpl. now eexists [_].
  - destruct (neighbors_run name w) as (imgs & w' & new & -> & Ht & Hf & Hl & _).
    simpl. now exists new.
Qed.

(** ** The short circuit and the failures of resolution *)

(** C6: a text query that is missing, empty or made of whitespace only
    gets the empty result list, and the world is left exactly as it was:
    nothing is logged, so neither the encoder nor the store was called. *)
Theorem blank_text_short_circuits q w :
  forallb py_isspace (args_get q) = true ->
  index q w = (Ok {| images := []; query := Some [] |}, w).
Proof.
  intros H. pose proof (strip_blank _ H) as Hs.
  rewrite (index_blank q w); rewrite Hs; reflexivity.
Qed.

(** C2, as the code has it: when the encoder raises, or returns [None]
    for a text query that is not blank, [index] does not produce a result
    list; the exception leaves [index], and the only collaborator call
    made is the one to the encoder. *)
Theorem encoding_failure_propagates q w :
  str_truthy (strip (args_get q)) = true ->
  text_query_vector q = None ->
  exists e raised,
    index q w = (Raise e, note (Encode (strip (args_get q))) raised w) /\
    e <> StoreError.
Proof.
  intros Ht Hv. unfold text_query_vector in Hv. rewrite Ht in Hv.
  destruct (text_encoder (strip (args_get q))) as [|[|xs|xs]] eqn:Eo;
    try discriminate.
  - exists EncoderError, true. split; [|discriminate].
    now apply index_encoder_raises.
  - exists TypeError, false. split; [|discriminate].
    now apply index_no_vector.
Qed.

(** C7: an exemplar whose name matches no row of the table, or whose
    lookup raises, gets the empty result list. *)
Theorem lookup_miss_is_empty name w :
  lookup_row name (image_embeddings w) = None \/
  (exists e, fst (neighbors_lookup name w) = Raise e) ->
  fst (neighbors name w) = Ok {| images := []; query := None |}.
Proof.
  intros H.
  destruct (neighbors_run name w) as (imgs & w' & new & -> & _ & _ & _ & _ & Hc).
  simpl.
  assert (Hno : ~ (fst (neighbors_lookup name w)
                   = Ok (found_embedding name (image_embeddings w)) /\
                   truthy (found_embedding name (image_embeddings w)) = true)).
  { intros [Hr Ht]. destruct H as [Hmiss | [e He]]; [|congruence].
    rewrite found_embedding_row, Hmiss in Ht. discriminate. }
  destruct Hc as [(_ & -> & _) | [(_ & _ & -> & _) | [(Hr & Ht & _) | (Hr & Ht & _)]]];
    try reflexivity; exfalso; apply Hno; now split.
Qed.

(** C10: when the lookup finds a row whose embedding is falsy, the
    request ends like a miss: the result list is empty and no
    nearest-neighbour statement is among the calls the request made. *)
Theorem falsy_embedding_is_a_miss name w x new :
  lookup_row name (image_embeddings w) = Some x ->
  truthy (embedding x) = false ->
  log (snd (neighbors name w)) = new ++ log w ->
  fst (neighbors name w) = Ok {| images := []; query := None |} /\
  no_nearest_query new.
Proof.
  intros Hx Hfalsy Hlog.
  destruct (neighbors_run name w) as (imgs & w' & new' & E & _ & _ & Hl & _ & Hc).
  rewrite E in *. simpl in *.
  rewrite Hl in Hlog. apply app_inv_tail in Hlog. subst new'.
  assert (Hf : truthy (found_embedding name (image_embeddings w)) = false)
    by now rewrite found_embedding_row, Hx.
  destruct Hc as [(_ & -> & _ & _ & Hn) | [(_ & _ & -> & _ & Hn) | [(_ & Ht & _) | (_ & Ht & _)]]];
    try (split; [reflexivity | exact Hn]); congruence.
Qed.

(** ** Failures of the store *)

(** C1: no request ever ends with an exception of the store, and a
    request during which some driver call raised returns the empty result
    list. *)
Theorem store_failure_degrades r w :
  fst (route r w) <> Raise StoreError /\
  forall new,
    log (snd (route r w)) = new ++ log w ->
    store_raised new = true ->
    fst (route r w) = Ok {| images := []; query := echo r |}.
Proof.
  destruct r as [q|name]; simpl.
  - destruct (text_query_vector q) as [v|] eqn:Hv.
    + destruct (index_run q w Hv) as (imgs & w' & new' & -> & _ & _ & Hl & _ & Hc).
      simpl. split; [discriminate|]. intros new Hlog Hraised.
      rewrite Hl in Hlog.
      change (new' ++ {| ev_call := Encode (strip (args_get q)); ev_raised := false |} :: log w)
        with (new' ++ [{| ev_call := Encode (strip (args_get q)); ev_raised := false |}] ++ log w)
        in Hlog.
      rewrite app_assoc in Hlog. apply app_inv_tail in Hlog. subst new.
      rewrite store_raised_app in Hraised. simpl in Hraised.
      rewrite orb_false_r in Hraised.
      destruct Hc as [(_ & Hq) | (-> & _)]; [|reflexivity].
      rewrite (quiet_not_raised Hq) in Hraised. discriminate.
    + unfold text_query_vector in Hv.
      destruct (str_truthy (strip (args_get q))) eqn:Ht.
      * destruct (text_encoder (strip (args_get q))) as [|[|xs|xs]] eqn:Eo;
          try discriminate.
        -- rewrite (index_encoder_raises q w Ht Eo). simpl.
           split; [discriminate|]. intros new Hlog Hraised.
           apply (app_inv_tail (log w) [_] new) in Hlog. subst new.
           discriminate.
        -- rewrite (index_no_vector q w Ht Eo). simpl.
           split; [discriminate|]. intros new Hlog Hraised.
           apply (app_inv_tail (log w) [_] new) in Hlog. subst new.
           discriminate.
      * rewrite (index_blank q w Ht). simpl.
        split; [discriminate|]. intros new Hlog Hraised.
        apply (app_inv_tail (log w) [] new) in Hlog. subst new. discriminate.
  - destruct (neighbors_run name w) as (imgs & w' & new' & -> & _ & _ & Hl & _ & Hc).
    simpl. split; [discriminate|]. intros new Hlog Hraised.
    rewrite Hl in Hlog. apply app_inv_tail in Hlog. subst new'.
    destruct Hc as [(_ & -> & _) | [(_ & _ & -> & _) | [(_ & _ & -> & _) | (_ & _ & _ & Hq)]]];
      try reflexivity.
    rewrite (quiet_not_raised Hq) in Hraised. discriminate.
Qed.

(** ** What the nearest-neighbour statements return *)

Lemma in_scored x v (tbl : list row) :
  In x (scored v tbl) -> exists r, In r tbl /\ file_name r = fst x.
Proof.
  unfold scored. rewrite in_map_iff. intros (r & <- & Hr). now exists r.
Qed.

Lemma nearest_except_names x v name (tbl : list row) :
  In x (map fst (run_statement (SelectNearestExcept v name) tbl)) ->
  x <> name.
Proof.
  unfold run_statement. rewrite in_map_iff. intros (y & <- & Hy).
  apply firstn_incl in Hy.
  apply (Permutation_in _ (order_by_distance_perm _)) in Hy.
  apply in_scored in Hy as (r & Hr & <-).
  unfold other_than in Hr. apply filter_In in Hr as [_ Hne].
  intros Heq. apply str_eqb_eq in Heq. rewrite Heq in Hne. discriminate.
Qed.

Lemma nearest_length v (tbl : list row) :
  length (map fst (run_statement (SelectNearest v) tbl))
  = Nat.min 30 (length tbl).
Proof.
  unfold run_statement, LIMIT.
  rewrite length_map, length_firstn,
    (Permutation_length (order_by_distance_perm _)).
  unfold scored. now rewrite length_map.
Qed.

Lemma nearest_except_length v name (tbl : list row) :
  length (map fst (run_statement (SelectNearestExcept v name) tbl))
  = Nat.min 30 (length (other_than name tbl)).
Proof.
  unfold run_statement, LIMIT.
  rewrite length_map, length_firstn,
    (Permutation_length (order_by_distance_perm _)).
  unfold scored. now rewrite length_map.
Qed.

Lemma query_vector_found name (tbl : list row) v :
  query_vector (GetNeighbors name) tbl = Some v ->
  found_embedding name tbl = v /\ truthy v = true.
Proof.
  simpl. rewrite found_embedding_row.
  destruct (lookup_row name tbl) as [x|]; [|discriminate].
  destruct (truthy (embedding x)) eqn:Ht; [|discriminate].
  intros [= <-]. now split.
Qed.

(** C3: the name an exemplar query asks about is never in its result
    list. *)
Theorem exemplar_excluded name w p :
  fst (neighbors name w) = Ok p -> ~ In name (images p).
Proof.
  destruct (neighbors_run name w) as (imgs & w' & new & -> & _ & _ & _ & _ & Hc).
  simpl. intros [= <-]. simpl.
  destruct Hc as [(_ & -> & _) | [(_ & _ & -> & _) | [(_ & _ & -> & _) | (_ & _ & -> & _)]]];
    try (intros []).
  intros Hin. now apply nearest_except_names in Hin.
Qed.

(** C4: a result list never has more than 30 names; and when the request
    is resolved to a query vector and no driver call raises, it has
    exactly [min 30 n] names, [n] being the number of eligible rows: all
    rows for a text query, the rows with another name for an exemplar. *)
Theorem result_cap r w p :
  fst (route r w) = Ok p ->
  length (images p) <= 30 /\
  (available w ->
   query_vector r (image_embeddings w) <> None ->
   length (images p)
   = Nat.min 30 (length (eligible r (image_embeddings w)))).
Proof.
  destruct r as [q|name]; simpl route; intros Hp.
  - destruct (text_query_vector q) as [v|] eqn:Hv.
    + destruct (index_run q w Hv) as (imgs & w' & new & E & _ & _ & _ & _ & Hc).
      rewrite E in Hp. simpl in Hp. injection Hp as <-. simpl images.
      simpl query_vector. rewrite Hv. simpl eligible.
      destruct Hc as [(-> & _) | (-> & _ & Hfa)].
      * rewrite nearest_length. split; [lia|reflexivity].
      * split; [simpl; lia|]. intros Ha. now apply available_not_faulty in Ha.
    + assert (Hnil : images p = []).
      { unfold text_query_vector in Hv.
        destruct (str_truthy (strip (args_get q))) eqn:Ht.
        - destruct (text_encoder (strip (args_get q))) as [|[|xs|xs]] eqn:Eo;
            try discriminate.
          + rewrite (index_encoder_raises q w Ht Eo) in Hp. discriminate.
          + rewrite (index_no_vector q w Ht Eo) in Hp. discriminate.
        - rewrite (index_blank q w Ht) in Hp. simpl in Hp. now injection Hp as <-. }
      rewrite Hnil. split; [simpl; lia|]. simpl query_vector. rewrite Hv.
      intros _ Habs. now contradiction Habs.
  - destruct (neighbors_run name w) as (imgs & w' & new & E & _ & _ & _ & _ & Hc).
    rewrite E in Hp. simpl in Hp. injection Hp as <-. simpl images.
    simpl eligible.
    assert (Hq : query_vector (GetNeighbors name) (image_embeddings w) <> None ->
               truthy (found_embedding name (image_embeddings w)) = true).
    { intros Hne.
      destruct (query_vector (GetNeighbors name) (image_embeddings w)) as [v|] eqn:Hv;
        [|now contradiction Hne].
      apply query_vector_found in Hv as [-> Ht]. exact Ht. }
    destruct Hc as [(_ & -> & _ & Hfa & _) | [(_ & Hf & -> & _) | [(_ & _ & -> & _ & Hfa) | (_ & _ & -> & _)]]].
    + split; [simpl; lia|]. intros Ha. now apply available_not_faulty in Ha.
    + split; [simpl; lia|]. intros _ Hne. rewrite (Hq Hne) in Hf. discriminate.
    + split; [simpl; lia|]. intros Ha. now apply available_not_faulty in Ha.
    + rewrite nearest_except_length. split; [lia|reflexivity].
Qed.

(** ** Ranking *)

Section Ordering.

(** PostgreSQL's comparison of distances is a total preorder. *)
Hypothesis leb_total : forall a b, leb a b = true \/ leb b a = true.
Hypothesis leb_trans :
  forall a b c, leb a b = true -> leb b c = true -> leb a c = true.

Lemma goes_before_le x y : goes_before x y = true -> by_distance x y.
Proof.
  unfold goes_before, by_distance. intros H.
  now apply andb_true_iff in H as [H _].
Qed.

Lemma goes_after_le x y : goes_before x y = false -> by_distance y x.
Proof.
  unfold goes_before, by_distance. intros H.
  destruct (leb (snd x) (snd y)) eqn:E.
  - simpl in H. apply orb_false_iff in H as [H _].
    now apply negb_false_iff in H.
  - destruct (leb_total (snd y) (snd x)); congruence.
Qed.

Lemma insert_by_sorted x l :
  StronglySorted by_distance l -> StronglySorted by_distance (insert_by x l).
Proof.
  induction 1 as [|y l Hs IH Hall]; simpl.
  - repeat constructor.
  - destruct (goes_before x y) eqn:E.
    + apply goes_before_le in E.
      constructor; [now constructor|].
      constructor; [exact E|].
      rewrite Forall_forall in *. intros z Hz.
      unfold by_distance in *. eapply leb_trans; [exact E|]. now apply Hall.
    + apply goes_after_le in E.
      constructor; [exact IH|].
      rewrite Forall_forall in *. intros z Hz.
      apply (Permutation_in _ (insert_by_perm x l)) in Hz.
      destruct Hz as [<-|Hz]; [exact E|now apply Hall].
Qed.

Lemma order_by_distance_sorted l :
  StronglySorted by_distance (order_by_distance l).
Proof.
  induction l as [|x l IH]; simpl; [constructor|].
  now apply insert_by_sorted.
Qed.

Lemma sorted_nil v (el : list row) : sorted_by_distance v el [].
Proof.
  exists []. repeat split.
  - intros x [].
  - constructor.
Qed.

Lemma sorted_select v (el : list row) :
  sorted_by_distance v el
    (map fst (firstn LIMIT (order_by_distance (scored v el)))).
Proof.
  exists (firstn LIMIT (order_by_distance (scored v el))). repeat split.
  - intros x Hx. apply firstn_incl in Hx.
    now apply (Permutation_in _ (order_by_distance_perm _)) in Hx.
  - apply firstn_strongly_sorted, order_by_distance_sorted.
Qed.

(** C5, as the code has it: the names a request returns are those of
    eligible rows in the order of the distance the store reports between
    each row and the query vector, smallest first.  The statement sorts
    by distance alone, so the order of rows whose distances compare equal
    is the store's and is not part of what is promised. *)
Theorem results_sorted_by_distance r w v p :
  query_vector r (image_embeddings w) = Some v ->
  fst (route r w) = Ok p ->
  sorted_by_distance v (eligible r (image_embeddings w)) (images p).
Proof.
  destruct r as [q|name]; simpl route; intros Hv Hp.
  - simpl in Hv.
    destruct (index_run q w Hv) as (imgs & w' & new & E & _ & _ & _ & _ & Hc).
    rewrite E in Hp. simpl in Hp. injection Hp as <-. simpl images.
    destruct Hc as [(-> & _) | (-> & _)]; [apply sorted_select | apply sorted_nil].
  - apply query_vector_found in Hv as [Hfound _].
    destruct (neighbors_run name w) as (imgs & w' & new & E & _ & _ & _ & _ & Hc).
    rewrite E in Hp. simpl in Hp. injection Hp as <-. simpl images.
    rewrite Hfound in Hc.
    destruct Hc as [(_ & -> & _) | [(_ & _ & -> & _) | [(_ & _ & -> & _) | (_ & _ & -> & _)]]];
      try apply sorted_nil.
    apply sorted_select.
Qed.

End Ordering.

(** ** Two runs against the same store *)

Lemma same_store_note c b1 b2 (w1 w2 : world) :
  same_store w1 w2 -> same_store (note c b1 w1) (note c b2 w2).
Proof.
  intros [Ht Hf]. split; [exact Ht|]. intros k c'. simpl.
  rewrite !Nat.add_succ_r. apply (Hf (S k)).
Qed.

Lemma sim_ret {A} (R : A -> A -> Prop) a1 a2 :
  R a1 a2 -> sim R (ret a1) (ret a2).
Proof. intros H w1 w2 Hs. now split. Qed.

Lemma sim_bind {A B} (R : A -> A -> Prop) (S : B -> B -> Prop)
    (m1 m2 : M A) (k1 k2 : A -> M B) :
  sim R m1 m2 ->
  (forall a1 a2, R a1 a2 -> sim S (k1 a1) (k2 a2)) ->
  sim S (bind m1 k1) (bind m2 k2).
Proof.
  intros Hm Hk w1 w2 Hs. unfold bind.
  destruct (Hm w1 w2 Hs) as [Hs' Hr].
  destruct (m1 w1) as [[a1|e1] w1'], (m2 w2) as [[a2|e2] w2'];
    simpl in *; try contradiction.
  - now apply Hk.
  - now split.
Qed.

Lemma sim_try_except {A} (R : A -> A -> Prop) (m1 m2 : M A)
    (h1 h2 : exn -> M A) :
  sim R m1 m2 ->
  (forall e, sim R (h1 e) (h2 e)) ->
  sim R (try_except m1 h1) (try_except m2 h2).
Proof.
  intros Hm Hh w1 w2 Hs. unfold try_except.
  destruct (Hm w1 w2 Hs) as [Hs' Hr].
  destruct (m1 w1) as [[a1|e1] w1'], (m2 w2) as [[a2|e2] w2'];
    simpl in *; try contradiction.
  - now split.
  - subst e2. now apply Hh.
Qed.

Lemma sim_store_call {A} (R : A -> A -> Prop) c
    (f1 f2 : world -> A * world) :
  (forall w1 w2, same_store w1 w2 ->
     same_store (snd (f1 w1)) (snd (f2 w2)) /\ R (fst (f1 w1)) (fst (f2 w2))) ->
  sim R (store_call c f1) (store_call c f2).
Proof.
  intros Hf w1 w2 Hs. unfold store_call.
  pose proof (proj2 Hs 0 c) as H0. simpl in H0. rewrite H0.
  destruct (faults w2 (length (log w2)) c).
  - simpl. split; [now apply same_store_note | reflexivity].
  - destruct (Hf _ _ (same_store_note c false false Hs)) as [Hs' Hr].
    destruct (f1 (note c false w1)), (f2 (note c false w2)). now split.
Qed.

Lemma sim_connect : sim (fun _ _ => True) connect connect.
Proof.
  apply sim_store_call. intros w1 w2 [Ht Hf]. simpl. now repeat split.
Qed.

Lemma sim_new_cursor conn1 conn2 :
  sim (fun _ _ => True) (new_cursor conn1) (new_cursor conn2).
Proof. apply sim_store_call. intros w1 w2 Hs. now split. Qed.

Lemma sim_execute {A} cur1 cur2 (s : statement A) :
  sim (fun a b => ld_rows a = ld_rows b) (execute cur1 s) (execute cur2 s).
Proof.
  apply sim_store_call. intros w1 w2 Hs. split; [exact Hs|].
  simpl. now rewrite (proj1 Hs).
Qed.

Lemma sim_fetchall {A} (c1 c2 : loaded A) :
  ld_rows c1 = ld_rows c2 -> sim eq (fetchall c1) (fetchall c2).
Proof. intros H. apply sim_store_call. intros w1 w2 Hs. now split. Qed.

Lemma sim_close_cursor cur1 cur2 :
  sim (fun _ _ => True) (close_cursor cur1) (close_cursor cur2).
Proof. apply sim_store_call. intros w1 w2 Hs. now split. Qed.

Lemma sim_close_connection conn1 conn2 :
  sim (fun _ _ => True) (close_connection conn1) (close_connection conn2).
Proof.
  apply sim_store_call. intros w1 w2 [Ht Hf]. simpl. now repeat split.
Qed.

Lemma sim_index_nearest v : sim eq (index_nearest v) (index_nearest v).
Proof.
  unfold index_nearest.
  eapply sim_bind; [apply sim_connect|]. intros conn1 conn2 _.
  eapply sim_bind; [apply sim_new_cursor|]. intros cur1 cur2 _.
  eapply sim_bind; [apply sim_execute|]. intros l1 l2 Hrows.
  eapply sim_bind; [apply (sim_fetchall _ _ Hrows)|]. intros rows1 rows2 <-.
  eapply sim_bind; [apply sim_close_cursor|]. intros _ _ _.
  eapply sim_bind; [apply sim_close_connection|]. intros _ _ _.
  now apply sim_ret.
Qed.

Lemma sim_clip_text_encoder query :
  sim eq (clip_text_encoder query) (clip_text_encoder query).
Proof.
  intros w1 w2 Hs. unfold clip_text_encoder.
  destruct (text_encoder query); simpl;
    (split; [now apply same_store_note | reflexivity]).
Qed.

Lemma sim_index q : sim eq (index q) (index q).
Proof.
  unfold index.
  eapply sim_bind with (R := eq).
  - destruct (str_truthy (strip (args_get q))); [|now apply sim_ret].
    eapply sim_bind; [apply sim_clip_text_encoder|]. intros o _ <-.
    eapply sim_bind with (R := eq).
    + destruct o; intros w1 w2 Hs; now split.
    + intros v _ <-. apply sim_try_except; [apply sim_index_nearest|].
      intros _. now apply sim_ret.
  - intros imgs _ <-. now apply sim_ret.
Qed.

(** C8: with the same table, the same behaviour of the store from the
    present call on and the one encoder, a text query gives the same
    outcome, whatever was logged or left open before; in particular the
    same list in the same order. *)
Theorem text_search_deterministic q w1 w2 :
  same_store w1 w2 -> fst (index q w1) = fst (index q w2).
Proof.
  intros Hs. destruct (sim_index q Hs) as [_ H].
  destruct (fst (index q w1)), (fst (index q w2)); try contradiction;
    now subst.
Qed.

End Facts.

(** ** The handlers on the sample instance *)

Import Sample.

Example red_car_on_gallery :
  fst (index (C := collaborators) red_car healthy)
  = Ok {| images := map str_of ["d.png"; "b.png"; "c.png"; "a.png"; "e.png"]%string;
          query := Some (str_of "red car") |}.
Proof. vm_compute. reflexivity. Qed.

Example neighbors_of_b :
  fst (neighbors (C := collaborators) (str_of "b.png") healthy)
  = Ok {| images := map str_of ["c.png"; "d.png"; "a.png"; "e.png"]%string;
          query := None |}.
Proof. vm_compute. reflexivity. Qed.

Example padded_query_is_trimmed :
  fst (index (C := collaborators) (Some (str_of "  red car ")) healthy)
  = fst (index (C := collaborators) red_car healthy).
Proof. vm_compute. reflexivity. Qed.

Lemma Zleb_total (a b : Z) : (a <=? b)%Z = true \/ (b <=? a)%Z = true.
Proof. rewrite !Z.leb_le. lia. Qed.

Lemma Zleb_trans (a b c : Z) :
  (a <=? b)%Z = true -> (b <=? c)%Z = true -> (a <=? c)%Z = true.
Proof. rewrite !Z.leb_le. lia. Qed.

Lemma no_fault_available tbl : available (world_with tbl no_fault).
Proof. intros k c. reflexivity. Qed.

(** When the store accepts the connection and then rejects the
    statement, [index] reaches its [return] without having called
    [close()]: the connection is only released when the frame is
    dropped. *)
Example rejected_statement_skips_close :
  fst (index (C := collaborators) red_car rejecting)
  = Ok {| images := []; query := Some (str_of "red car") |} /\
  open_conns (snd (index (C := collaborators) red_car rejecting)) = [0] /\
  open_conns (snd (serve (C := collaborators) (GetIndex red_car) rejecting)) = [] /\
  log (snd (index (C := collaborators) red_car rejecting))
  = events [ (true, Execute (SelectNearest (C := collaborators) (PyList [3; 1]%Z)));
             (false, Cursor); (false, Connect);
             (false, Encode (str_of "red car")) ].
Proof. vm_compute. repeat split. Qed.

Example neighbors_skips_close_too :
  open_conns (snd (neighbors (C := collaborators) (str_of "b.png") rejecting)) = [0].
Proof. vm_compute. reflexivity. Qed.

Example quiet_request_closes :
  open_conns (snd (neighbors (C := collaborators) (str_of "b.png") healthy)) = [].
Proof. vm_compute. reflexivity. Qed.

(** C2 fails as stated: the encoder raises on a text query that is not
    blank, and [index] ends with that exception instead of a result. *)
Lemma encoding_failure_is_not_recovered :
  str_truthy (strip (args_get boom)) = true /\
  text_encoder (Collaborators := collaborators) (strip (args_get boom)) = EncRaises /\
  fst (index (C := collaborators) boom healthy) = Raise EncoderError /\
  ~ (exists p, fst (index (C := collaborators) boom healthy) = Ok p /\ images p = []).
Proof.
  repeat split; try (vm_compute; reflexivity).
  intros (p & Hp & _). vm_compute in Hp. discriminate.
Qed.

Lemma encoding_failure_propagates_witness :
  str_truthy (strip (args_get boom)) = true /\
  text_query_vector (C := collaborators) boom = None /\
  exists e raised,
    index (C := collaborators) boom healthy
    = (Raise e, note (Encode (strip (args_get boom))) raised healthy) /\
    e <> StoreError.
Proof.
  split; [reflexivity|]. split; [reflexivity|].
  apply (encoding_failure_propagates (C := collaborators) boom healthy);
    reflexivity.
Defined.

Lemma blank_text_short_circuits_witness :
  forallb py_isspace (args_get blank) = true /\
  index (C := collaborators) blank healthy
  = (Ok {| images := []; query := Some [] |}, healthy).
Proof.
  split; [reflexivity|].
  apply (blank_text_short_circuits (C := collaborators) blank healthy).
  reflexivity.
Defined.

Lemma lookup_miss_is_empty_witness :
  lookup_row (str_of "zz.png") (image_embeddings healthy) = None /\
  fst (neighbors (C := collaborators) (str_of "zz.png") healthy)
  = Ok {| images := []; query := None |}.
Proof.
  split; [reflexivity|].
  apply (lookup_miss_is_empty (C := collaborators) (str_of "zz.png") healthy).
  left. reflexivity.
Defined.

Lemma falsy_embedding_is_a_miss_witness :
  lookup_row (str_of "e.png") (image_embeddings healthy)
  = Some (img "e.png" PyNone) /\
  truthy (embedding (img "e.png" PyNone)) = false /\
  fst (neighbors (C := collaborators) (str_of "e.png") healthy)
  = Ok {| images := []; query := None |} /\
  no_nearest_query
    (log (snd (neighbors (C := collaborators) (str_of "e.png") healthy))).
Proof.
  split; [reflexivity|]. split; [reflexivity|].
  apply (falsy_embedding_is_a_miss (C := collaborators)
           (str_of "e.png") healthy (x := img "e.png" PyNone));
    vm_compute; reflexivity.
Defined.

Lemma store_failure_degrades_witness :
  store_raised (log (snd (route (C := collaborators) (GetIndex red_car) down))) = true /\
  fst (route (C := collaborators) (GetIndex red_car) down) <> Raise StoreError /\
  fst (route (C := collaborators) (GetIndex red_car) down)
  = Ok {| images := []; query := Some (str_of "red car") |}.
Proof.
  split; [reflexivity|].
  destruct (store_failure_degrades (C := collaborators) (GetIndex red_car) down)
    as [Hnever Hempty].
  split; [exact Hnever|].
  apply (Hempty (log (snd (route (C := collaborators) (GetIndex red_car) down))));
    vm_compute; reflexivity.
Defined.

Lemma exemplar_excluded_witness :
  fst (neighbors (C := collaborators) (str_of "b.png") healthy)
  = Ok {| images := map str_of ["c.png"; "d.png"; "a.png"; "e.png"]%string;
          query := None |} /\
  ~ In (str_of "b.png")
       (map str_of ["c.png"; "d.png"; "a.png"; "e.png"]%string).
Proof.
  split; [vm_compute; reflexivity|].
  apply (exemplar_excluded (C := collaborators) (str_of "b.png") healthy
           (p := {| images := map str_of ["c.png"; "d.png"; "a.png"; "e.png"]%string;
                    query := None |})).
  vm_compute. reflexivity.
Defined.

Example crowd_has_forty_rows : length crowd = 40.
Proof. reflexivity. Qed.

Lemma result_cap_witness :
  fst (route (C := collaborators) (GetIndex red_car) crowded) = Ok crowd_page /\
  available crowded /\
  query_vector (C := collaborators) (GetIndex red_car) (image_embeddings crowded)
  <> None /\
  length (images crowd_page) <= 30 /\
  length (images crowd_page)
  = Nat.min 30 (length (eligible (GetIndex red_car) (image_embeddings crowded))).
Proof.
  assert (Hp : fst (route (C := collaborators) (GetIndex red_car) crowded)
               = Ok crowd_page) by (vm_compute; reflexivity).
  split; [exact Hp|]. split; [apply no_fault_available|].
  split; [discriminate|].
  destruct (result_cap (C := collaborators) (GetIndex red_car) crowded Hp)
    as [Hle Heq].
  split; [exact Hle|].
  apply Heq; [apply no_fault_available | discriminate].
Defined.

Lemma results_sorted_by_distance_witness :
  query_vector (C := collaborators) (GetIndex red_car) (image_embeddings healthy)
  = Some (PyList [3; 1]%Z) /\
  fst (route (C := collaborators) (GetIndex red_car) healthy)
  = Ok {| images := map str_of ["d.png"; "b.png"; "c.png"; "a.png"; "e.png"]%string;
          query := Some (str_of "red car") |} /\
  sorted_by_distance (C := collaborators) (PyList [3; 1]%Z)
    (eligible (GetIndex red_car) (image_embeddings healthy))
    (map str_of ["d.png"; "b.png"; "c.png"; "a.png"; "e.png"]%string).
Proof.
  assert (Hp : fst (route (C := collaborators) (GetIndex red_car) healthy)
               = Ok {| images := map str_of ["d.png"; "b.png"; "c.png"; "a.png"; "e.png"]%string;
                       query := Some (str_of "red car") |})
    by (vm_compute; reflexivity).
  split; [reflexivity|]. split; [exact Hp|].
  exact (@results_sorted_by_distance collaborators Zleb_total Zleb_trans
           (GetIndex red_car) healthy (PyList [3; 1]%Z) _ eq_refl Hp).
Defined.

Lemma text_search_deterministic_witness :
  same_store healthy (snd (index (C := collaborators) red_car healthy)) /\
  fst (index (C := collaborators) red_car healthy)
  = fst (index (C := collaborators) red_car
           (snd (index (C := collaborators) red_car healthy))).
Proof.
  assert (Hs : same_store healthy (snd (index (C := collaborators) red_car healthy))).
  { split; [reflexivity|]. intros k c. reflexivity. }
  split; [exact Hs|].
  apply (text_search_deterministic (C := collaborators) red_car Hs).
Defined.

(** ** The driver protocol and the connections *)

Section ProtocolFacts.

Context {C : Collaborators}.

Ltac trace_prefix l base :=
  lazymatch l with
  | base => constr:(@nil event)
  | ?e :: ?l' => let p := trace_prefix l' base in constr:(e :: p)
  end.

Ltac trace_new :=
  lazymatch goal with
  | |- exists new, block_run _ _ new _ =>
      unfold block_run, protocol; cbn;
      lazymatch goal with
      | |- exists new, ?l = new ++ ?base /\ _ =>
          let p := trace_prefix l base in exists p; split; [reflexivity|]
      end
  end.

Ltac trace_count k :=
  exists k; split; [cbn; lia|]; split; [reflexivity|];
  split; [repeat constructor|];
  first [ intros _; reflexivity
        | intros Hq; inversion Hq; discriminate ].

Ltac trace_leaf :=
  trace_new;
  split; [repeat constructor|];
  split;
  [ first [ trace_count 1 | trace_count 2 | trace_count 3
          | trace_count 4 | trace_count 5 | trace_count 6 ]
  | first
      [ left; split; [repeat constructor|];
        split; [cbn; apply remove_conn_head | reflexivity]
      | right; left; repeat split; reflexivity
      | right; right; split; [reflexivity|];
        split; [unfold connect_ok; cbn; tauto|]; split; reflexivity ] ].

Ltac trace_step :=
  match goal with
  | |- context [faults ?w ?k ?c] =>
      let E := fresh "E" in destruct (faults w k c) eqn:E; cbn
  end.

Ltac trace_walk :=
  unfold bind, connect, new_cursor, execute, fetchone, fetchall,
    close_cursor, close_connection, store_call, ret;
  cbn; repeat trace_step; trace_leaf.

Lemma index_nearest_trace v w :
  exists new,
    block_run (protocol (SelectNearest v) Fetchall) w new
      (snd (index_nearest v w)).
Proof. unfold index_nearest. trace_walk. Qed.

Lemma neighbors_nearest_trace v name w :
  exists new,
    block_run (protocol (SelectNearestExcept v name) Fetchall) w new
      (snd (neighbors_nearest v name w)).
Proof. unfold neighbors_nearest. trace_walk. Qed.

Lemma neighbors_lookup_trace name w :
  exists new,
    block_run (protocol (SelectEmbedding name) Fetchone) w new
      (snd (neighbors_lookup name w)).
Proof. unfold neighbors_lookup. trace_walk. Qed.

(** The calls of a block, with the result the block gives. *)
Lemma outcome_and_trace {A B} (s : statement A) (expected : B) calls w
    (out : result B * world) :
  block_outcome s expected w out ->
  (exists new, block_run calls w new (snd out)) ->
  exists new,
    block_run calls w new (snd out) /\
    ((quiet new /\ fst out = Ok expected) \/
     (store_raised new = true /\ fst out = Raise StoreError)).
Proof.
  intros (_ & _ & new' & Hl' & _ & _ & Hc) (new & Hrun).
  exists new. split; [exact Hrun|].
  destruct Hrun as (Hl & _). rewrite Hl' in Hl. apply app_inv_tail in Hl.
  subst new'.
  destruct Hc as [(Hr & Hq & _) | (Hr & Hs & _)]; [left | right]; now split.
Qed.

Lemma driver_calls_all (evs : list event) :
  Forall store_event evs -> driver_calls evs = evs.
Proof.
  induction 1 as [|e evs He _ IH]; [reflexivity|].
  unfold driver_calls in *. simpl. unfold store_event in He.
  now rewrite He, IH.
Qed.

Lemma encoder_calls_none (evs : list event) :
  Forall store_event evs -> encoder_calls evs = [].
Proof.
  induction 1 as [|e evs He _ IH]; [reflexivity|].
  unfold encoder_calls in *. simpl. unfold store_event in He.
  now rewrite He.
Qed.

Lemma driver_calls_app (a b : list event) :
  driver_calls (a ++ b) = driver_calls a ++ driver_calls b.
Proof. apply filter_app. Qed.

Lemma encoder_calls_app (a b : list event) :
  encoder_calls (a ++ b) = encoder_calls a ++ encoder_calls b.
Proof. apply filter_app. Qed.

Lemma index_world q v w :
  text_query_vector q = Some v ->
  snd (index q w)
  = snd (index_nearest v (note (Encode (strip (args_get q))) false w)).
Proof.
  intros Hv. unfold index, bind, clip_text_encoder.
  unfold text_query_vector in Hv.
  destruct (str_truthy (strip (args_get q))); [|discriminate].
  destruct (text_encoder (strip (args_get q))) as [|o]; [discriminate|].
  assert (Hl : to_embedding_list o = ret v)
    by (destruct o; inversion Hv; reflexivity).
  rewrite Hl. unfold ret at 1. unfold try_except, ret.
  destruct (index_nearest v _) as [[imgs|e] w2]; reflexivity.
Qed.

(** Without a query vector [index] logs at most the call to the
    encoder. *)
Lemma index_world_unresolved q w :
  text_query_vector q = None ->
  snd (index q w) = w \/
  exists raised,
    str_truthy (strip (args_get q)) = true /\
    snd (index q w) = note (Encode (strip (args_get q))) raised w.
Proof.
  intros Hv. unfold text_query_vector in Hv.
  destruct (str_truthy (strip (args_get q))) eqn:Ht.
  - right.
    destruct (text_encoder (strip (args_get q))) as [|[|xs|xs]] eqn:Eo;
      try discriminate.
    + exists true. now rewrite (index_encoder_raises q w Ht Eo).
    + exists false. now rewrite (index_no_vector q w Ht Eo).
  - left. now rewrite (index_blank q w Ht).
Qed.

Lemma neighbors_world name w :
  snd (neighbors name w)
  = match fst (neighbors_lookup name w) with
    | Ok emb =>
        if truthy emb
        then snd (neighbors_nearest emb name (snd (neighbors_lookup name w)))
        else snd (neighbors_lookup name w)
    | Raise _ => snd (neighbors_lookup name w)
    end.
Proof.
  unfold neighbors, bind, try_except, ret, render_template_string.
  destruct (neighbors_lookup name w) as [[emb|e] w1]; simpl; [|reflexivity].
  destruct (truthy emb); [|reflexivity].
  destruct (neighbors_nearest emb name w1) as [[imgs|e] w2]; reflexivity.
Qed.

(** The one block of a text query that has a vector. *)
Lemma index_block q v w :
  text_query_vector q = Some v ->
  exists new,
    block_run (protocol (SelectNearest v) Fetchall)
      (note (Encode (strip (args_get q))) false w) new (snd (index q w)).
Proof.
  intros Hv. rewrite (index_world q w Hv). apply index_nearest_trace.
Qed.

(** The two blocks of an exemplar query: the second runs when the first
    raised nothing and found a truthy embedding. *)
Lemma neighbors_blocks name w :
  let found := found_embedding name (image_embeddings w) in
  let w1 := snd (neighbors_lookup name w) in
  exists first,
    block_run (protocol (SelectEmbedding name) Fetchone) w first w1 /\
    ((snd (neighbors name w) = w1 /\ (quiet first -> truthy found = false))
     \/
     (quiet first /\ truthy found = true /\
      exists second,
        block_run (protocol (SelectNearestExcept found name) Fetchall)
          w1 second (snd (neighbors name w)))).
Proof.
  intros found w1.
  destruct (outcome_and_trace (neighbors_lookup_outcome name w)
              (neighbors_lookup_trace name w)) as (first & Hrun & Hres).
  fold found w1 in Hrun, Hres.
  exists first. split; [exact Hrun|].
  rewrite neighbors_world. fold w1.
  destruct Hres as [(Hq & ->) | (Hs & ->)].
  - destruct (truthy found) eqn:Ht.
    + right. split; [exact Hq|]. split; [reflexivity|].
      apply neighbors_nearest_trace.
    + left. now split.
  - left. split; [reflexivity|]. intros Hq.
    rewrite (quiet_not_raised Hq) in Hs. discriminate.
Qed.


(** *** Which calls a request makes *)

(** X1: a text query that resolves to a vector makes the driver calls
    connect, cursor, execute of the nearest-neighbour statement, fetchall,
    close cursor, close connection, in this order and each at most once,
    and makes no call after the first one that raises; a text query
    without a vector makes no driver call at all. *)
Theorem index_driver_protocol q w new :
  log (snd (index q w)) = new ++ log w ->
  match text_query_vector q with
  | Some v =>
      stops_at_first_raise (protocol (SelectNearest v) Fetchall)
        (driver_calls new)
  | None => driver_calls new = []
  end.
Proof.
  intros Hlog. destruct (text_query_vector q) as [v|] eqn:Hv.
  - destruct (index_block q w Hv) as (new0 & Hl & Hev & Hstop & _).
    rewrite Hl in Hlog. simpl in Hlog.
    change (new0 ++ {| ev_call := Encode (strip (args_get q)); ev_raised := false |} :: log w)
      with (new0 ++ [{| ev_call := Encode (strip (args_get q)); ev_raised := false |}] ++ log w)
      in Hlog.
    rewrite app_assoc in Hlog. apply app_inv_tail in Hlog. subst new.
    rewrite driver_calls_app, (driver_calls_all Hev).
    cbn. now rewrite app_nil_r.
  - destruct (index_world_unresolved q w Hv) as [Hw | (raised & _ & Hw)];
      rewrite Hw in Hlog.
    + apply (app_inv_tail (log w) [] new) in Hlog. now subst new.
    + apply (app_inv_tail (log w) [_] new) in Hlog. now subst new.
Qed.

(** X2: an exemplar query first runs the lookup block, and runs the
    nearest-neighbour block, with the embedding it found and its own name
    as the excluded one, exactly when no call of the lookup raised and
    the embedding is truthy; each block stops at its first call that
    raises.  There is no third block and no retry. *)
Theorem neighbors_driver_protocol name w new :
  log (snd (neighbors name w)) = new ++ log w ->
  exists second first,
    new = second ++ first /\
    stops_at_first_raise (protocol (SelectEmbedding name) Fetchone) first /\
    ((second = [] /\
      (quiet first ->
       truthy (found_embedding name (image_embeddings w)) = false))
     \/
     (quiet first /\
      truthy (found_embedding name (image_embeddings w)) = true /\
      stops_at_first_raise
        (protocol (SelectNearestExcept
                     (found_embedding name (image_embeddings w)) name)
                  Fetchall)
        second)).
Proof.
  intros Hlog.
  destruct (neighbors_blocks name w) as (first & (Hl1 & _ & Hs1 & _) & Hc).
  destruct Hc as [(Hw & Hf) | (Hq & Ht & second & Hl2 & _ & Hs2 & _)].
  - exists [], first. rewrite Hw, Hl1 in Hlog.
    apply app_inv_tail in Hlog. subst new.
    split; [reflexivity|]. split; [exact Hs1|]. left. now split.
  - exists second, first. rewrite Hl2, Hl1, app_assoc in Hlog.
    apply app_inv_tail in Hlog. subst new.
    split; [reflexivity|]. split; [exact Hs1|]. right. now repeat split.
Qed.

Lemma str_truthy_strip (s : str) :
  str_truthy (strip s) = negb (forallb py_isspace s).
Proof.
  destruct (forallb py_isspace s) eqn:E.
  - now rewrite (strip_blank s E).
  - destruct (strip s) eqn:Es; [|reflexivity].
    apply strip_nil_blank in Es. congruence.
Qed.

(** X3: the encoder is called exactly once, with the trimmed text, by a
    text query that holds a character other than whitespace, and is not
    called by any other request. *)
Theorem encoder_called_once r w new :
  log (snd (route r w)) = new ++ log w ->
  map ev_call (encoder_calls new)
  = match r with
    | GetIndex q =>
        if forallb py_isspace (args_get q) then []
        else [Encode (strip (args_get q))]
    | GetNeighbors _ => []
    end.
Proof.
  intros Hlog. destruct r as [q|name]; simpl in Hlog.
  - pose proof (str_truthy_strip (args_get q)) as Hts.
    destruct (text_query_vector q) as [v|] eqn:Hv.
    + destruct (index_block q w Hv) as (new0 & Hl & Hev & _).
      rewrite Hl in Hlog. simpl in Hlog.
      change (new0 ++ {| ev_call := Encode (strip (args_get q)); ev_raised := false |} :: log w)
        with (new0 ++ [{| ev_call := Encode (strip (args_get q)); ev_raised := false |}] ++ log w)
        in Hlog.
      rewrite app_assoc in Hlog. apply app_inv_tail in Hlog. subst new.
      rewrite encoder_calls_app, (encoder_calls_none Hev). cbn.
      unfold text_query_vector in Hv.
      destruct (str_truthy (strip (args_get q))); [|discriminate].
      destruct (forallb py_isspace (args_get q)); [discriminate|reflexivity].
    + destruct (index_world_unresolved q w Hv) as [Hw | (raised & Ht & Hw)].
      * rewrite Hw in Hlog.
        apply (app_inv_tail (log w) [] new) in Hlog. subst new.
        unfold text_query_vector in Hv.
        destruct (str_truthy (strip (args_get q))) eqn:Ht.
        -- destruct (text_encoder (strip (args_get q))) as [|[|xs|xs]] eqn:Eo;
             try discriminate.
           ++ rewrite (index_encoder_raises q w Ht Eo) in Hw. simpl in Hw.
              apply (f_equal (fun x => length (log x))) in Hw. simpl in Hw. lia.
           ++ rewrite (index_no_vector q w Ht Eo) in Hw. simpl in Hw.
              apply (f_equal (fun x => length (log x))) in Hw. simpl in Hw. lia.
        -- destruct (forallb py_isspace (args_get q)); [reflexivity|discriminate].
      * rewrite Hw in Hlog.
        apply (app_inv_tail (log w) [_] new) in Hlog. subst new.
        rewrite Ht in Hts.
        destruct (forallb py_isspace (args_get q)); [discriminate|reflexivity].
  - destruct (neighbors_run name w) as (imgs & w' & new' & E & _ & _ & Hl & Hev & _).
    rewrite E in Hlog. simpl in Hlog. rewrite Hl in Hlog.
    apply app_inv_tail in Hlog. subst new'.
    now rewrite (encoder_calls_none Hev).
Qed.

(** *** Connections *)

Lemma remove_conn_fresh n (l : list nat) :
  Forall (fun c => c < n) l -> remove_conn n l = l.
Proof.
  induction 1 as [|c l Hc _ IH]; [reflexivity|].
  unfold remove_conn in *. simpl.
  destruct (Nat.eqb_spec c n); [lia|]. simpl. now rewrite IH.
Qed.

Lemma block_conns calls w new w' :
  block_run calls w new w' ->
  conns_fresh w ->
  conns_fresh w' /\
  incl (open_conns w) (open_conns w') /\
  (store_raised new = false -> open_conns w' = open_conns w).
Proof.
  unfold conns_fresh. intros (_ & _ & _ & Hc) Hf.
  destruct Hc as [(Hq & Ho & Hn) | [(-> & Ho & Hn) | (Hs & _ & Ho & Hn)]];
    rewrite Ho, Hn.
  - rewrite (remove_conn_fresh Hf). repeat split.
    + eapply Forall_impl; [|exact Hf]. intros c Hc. simpl in Hc. lia.
    + apply incl_refl.
  - repeat split; [exact Hf | apply incl_refl].
  - repeat split.
    + constructor; [lia|].
      eapply Forall_impl; [|exact Hf]. intros c Hc. simpl in Hc. lia.
    + apply incl_tl, incl_refl.
    + intros Hfalse. congruence.
Qed.

(** X4: a request never closes a connection it did not open, and when
    none of its driver calls raises it leaves open exactly the
    connections that were open before. *)
Theorem request_connections r w new :
  conns_fresh w ->
  log (snd (route r w)) = new ++ log w ->
  conns_fresh (snd (route r w)) /\
  incl (open_conns w) (open_conns (snd (route r w))) /\
  (store_raised new = false -> open_conns (snd (route r w)) = open_conns w).
Proof.
  intros Hf Hlog. destruct r as [q|name]; simpl in *.
  - destruct (text_query_vector q) as [v|] eqn:Hv.
    + destruct (index_block q w Hv) as (new0 & Hrun).
      destruct (block_conns Hrun Hf) as (Hf' & Hi & Hs).
      destruct Hrun as (Hl & _).
      rewrite Hl in Hlog. simpl in Hlog.
      change (new0 ++ {| ev_call := Encode (strip (args_get q)); ev_raised := false |} :: log w)
        with (new0 ++ [{| ev_call := Encode (strip (args_get q)); ev_raised := false |}] ++ log w)
        in Hlog.
      rewrite app_assoc in Hlog. apply app_inv_tail in Hlog. subst new.
      repeat split; [exact Hf' | exact Hi |].
      rewrite store_raised_app. simpl. rewrite orb_false_r. exact Hs.
    + destruct (index_world_unresolved q w Hv) as [-> | (raised & _ & ->)];
        (repeat split; [exact Hf | apply incl_refl]).
  - destruct (neighbors_blocks name w) as (first & Hrun1 & Hc).
    destruct (block_conns Hrun1 Hf) as (Hf1 & Hi1 & Hs1).
    destruct Hrun1 as (Hl1 & _).
    destruct Hc as [(Hw & _) | (_ & _ & second & Hrun2)].
    + rewrite Hw in *. rewrite Hl1 in Hlog. apply app_inv_tail in Hlog.
      subst new. now repeat split.
    + destruct (block_conns Hrun2 Hf1) as (Hf2 & Hi2 & Hs2).
      destruct Hrun2 as (Hl2 & _).
      rewrite Hl2, Hl1, app_assoc in Hlog. apply app_inv_tail in Hlog.
      subst new. repeat split; [exact Hf2 | |].
      * eapply incl_tran; eassumption.
      * rewrite store_raised_app. intros H.
        apply orb_false_iff in H as [H2 H1].
        now rewrite (Hs2 H2), (Hs1 H1).
Qed.







End ProtocolFacts.

(** ** More about the result list *)

Section ResultFacts.

Context {C : Collaborators}.

Lemma scored_names v (tbl : list row) :
  map fst (scored v tbl) = map file_name tbl.
Proof. unfold scored. rewrite map_map. reflexivity. Qed.

Lemma store_answer_names r v (tbl : list row) :
  exists rest,
    Permutation (store_answer r v tbl ++ rest) (map file_name (eligible r tbl)).
Proof.
  unfold store_answer.
  exists (map fst (skipn LIMIT (order_by_distance (scored v (eligible r tbl))))).
  rewrite <- map_app, firstn_skipn, <- (scored_names v).
  apply Permutation_map, order_by_distance_perm.
Qed.

(** A request returns the answer of the store to its vector, or nothing
    when it has no vector or a driver call raises. *)
Lemma route_images r w p :
  fst (route r w) = Ok p ->
  (images p = [] /\
   (query_vector r (image_embeddings w) = None \/ faulty w))
  \/
  exists v,
    query_vector r (image_embeddings w) = Some v /\
    images p = store_answer r v (image_embeddings w).
Proof.
  destruct r as [q|name]; simpl route; intros Hp.
  - destruct (text_query_vector q) as [v|] eqn:Hv.
    + destruct (index_run q w Hv) as (imgs & w' & new & E & _ & _ & _ & _ & Hc).
      rewrite E in Hp. simpl in Hp. injection Hp as <-. simpl images.
      destruct Hc as [(-> & _) | (-> & _ & Hfa)]; [right | left; now auto].
      exists v. split; [exact Hv | reflexivity].
    + left. split; [|left; exact Hv]. unfold text_query_vector in Hv.
      destruct (str_truthy (strip (args_get q))) eqn:Ht.
      * destruct (text_encoder (strip (args_get q))) as [|[|xs|xs]] eqn:Eo;
          try discriminate.
        -- rewrite (index_encoder_raises q w Ht Eo) in Hp. discriminate.
        -- rewrite (index_no_vector q w Ht Eo) in Hp. discriminate.
      * rewrite (index_blank q w Ht) in Hp. simpl in Hp. now injection Hp as <-.
  - destruct (neighbors_run name w) as (imgs & w' & new & E & _ & _ & _ & _ & Hc).
    rewrite E in Hp. simpl in Hp. injection Hp as <-. simpl images.
    simpl query_vector. rewrite found_embedding_row in Hc.
    destruct Hc as [(_ & -> & _ & Hfa & _) | [(_ & Ht & -> & _) | [(_ & _ & -> & _ & Hfa) | (_ & Ht & -> & _)]]].
    + left. now auto.
    + left. split; [reflexivity|]. left.
      destruct (lookup_row name (image_embeddings w)) as [x|]; [|reflexivity].
      now rewrite Ht.
    + left. now auto.
    + right.
      destruct (lookup_row name (image_embeddings w)) as [x|]; [|discriminate].
      exists (embedding x). rewrite Ht. split; reflexivity.
Qed.

(** With a store that raises nothing, a resolved request returns the
    answer of the store. *)
Lemma route_answer r w v p :
  available w ->
  query_vector r (image_embeddings w) = Some v ->
  fst (route r w) = Ok p ->
  images p = store_answer r v (image_embeddings w).
Proof.
  intros Ha Hv Hp.
  destruct (route_images r w Hp) as [(_ & [Hnone | Hfa]) | (v' & Hv' & ->)].
  - congruence.
  - now apply available_not_faulty in Ha.
  - congruence.
Qed.

(** X6: every name in a result list is the [file_name] of a row of the
    table that the request may return: any row for a text query, a row
    with another name for an exemplar. *)
Theorem results_are_table_names r w p x :
  fst (route r w) = Ok p ->
  In x (images p) ->
  exists row,
    In row (eligible r (image_embeddings w)) /\ file_name row = x.
Proof.
  intros Hp Hx.
  destruct (route_images r w Hp) as [(Hnil & _) | (v & _ & Himgs)].
  - rewrite Hnil in Hx. destruct Hx.
  - rewrite Himgs in Hx.
    destruct (store_answer_names r v (image_embeddings w)) as [rest Hperm].
    assert (Hin : In x (map file_name (eligible r (image_embeddings w)))).
    { apply (Permutation_in _ Hperm). apply in_or_app. now left. }
    apply in_map_iff in Hin as (row & Hrow & Hin). now exists row.
Qed.

Lemma NoDup_app_left {A} (a b : list A) : NoDup (a ++ b) -> NoDup a.
Proof.
  induction a as [|x a IH]; simpl; [constructor|].
  intros H. inversion H as [|? ? Hnot Hrest]; subst.
  constructor; [|now apply IH].
  intros Hin. apply Hnot. apply in_or_app. now left.
Qed.

Lemma NoDup_map_filter {A B} (f : A -> B) (keep : A -> bool) (l : list A) :
  NoDup (map f l) -> NoDup (map f (filter keep l)).
Proof.
  induction l as [|x l IH]; simpl; [constructor|].
  intros H. inversion H as [|? ? Hnot Hrest]; subst.
  destruct (keep x); [|now apply IH].
  simpl. constructor; [|now apply IH].
  intros Hin. apply Hnot. apply in_map_iff in Hin as (y & Hy & Hin).
  apply in_map_iff. exists y. split; [exact Hy|].
  now apply filter_In in Hin as [Hin _].
Qed.

(** X7: when the rows of the table have pairwise different file names,
    no name occurs twice in a result list. *)
Theorem distinct_names_give_distinct_results r w p :
  NoDup (map file_name (image_embeddings w)) ->
  fst (route r w) = Ok p ->
  NoDup (images p).
Proof.
  intros Hnd Hp.
  destruct (route_images r w Hp) as [(-> & _) | (v & _ & ->)]; [constructor|].
  destruct (store_answer_names r v (image_embeddings w)) as [rest Hperm].
  apply NoDup_app_left with (b := rest).
  apply (Permutation_NoDup (Permutation_sym Hperm)).
  destruct r as [q|name]; simpl; [exact Hnd|].
  now apply NoDup_map_filter.
Qed.

(** X8: when no driver call raises and at most 30 rows are eligible, a
    resolved request returns every eligible row: its result list is a
    rearrangement of their file names. *)
Theorem small_table_is_returned_whole r w p :
  available w ->
  query_vector r (image_embeddings w) <> None ->
  length (eligible r (image_embeddings w)) <= 30 ->
  fst (route r w) = Ok p ->
  Permutation (images p) (map file_name (eligible r (image_embeddings w))).
Proof.
  intros Ha Hne Hlen Hp.
  destruct (query_vector r (image_embeddings w)) as [v|] eqn:Hv;
    [|now contradiction Hne].
  rewrite (route_answer r Ha Hv Hp). unfold store_answer.
  rewrite firstn_all2.
  - rewrite <- (scored_names v). apply Permutation_map, order_by_distance_perm.
  - rewrite (Permutation_length (order_by_distance_perm _)).
    unfold scored. rewrite length_map. exact Hlen.
Qed.

Section Nearest.

Hypothesis leb_total : forall a b, leb a b = true \/ leb b a = true.
Hypothesis leb_trans :
  forall a b c, leb a b = true -> leb b c = true -> leb a c = true.

Lemma sorted_app_le {A} (R : A -> A -> Prop) (a b : list A) x y :
  StronglySorted R (a ++ b) -> In x a -> In y b -> R x y.
Proof.
  induction a as [|z a IH]; simpl; [intros _ []|].
  intros H [-> | Hx] Hy; inversion H as [|? ? Hs Hall]; subst.
  - rewrite Forall_forall in Hall. apply Hall. apply in_or_app. now right.
  - now apply IH.
Qed.

(** X9: the rows of a result list are a nearest part of the eligible
    rows: the store reports for every eligible row that is left out a
    distance at least as large as for every row that is returned. *)
Theorem results_are_nearest r w v p :
  query_vector r (image_embeddings w) = Some v ->
  fst (route r w) = Ok p ->
  nearest_cut v (eligible r (image_embeddings w)) (images p).
Proof.
  intros Hv Hp.
  destruct (route_images r w Hp) as [(-> & _) | (v' & Hv' & ->)].
  - exists [], (scored v (eligible r (image_embeddings w))).
    repeat split; [apply Permutation_refl | intros x y []].
  - assert (v' = v) by congruence. subst v'.
    set (sorted := order_by_distance (scored v (eligible r (image_embeddings w)))).
    exists (firstn LIMIT sorted), (skipn LIMIT sorted).
    split; [reflexivity|]. split.
    + rewrite firstn_skipn. apply order_by_distance_perm.
    + intros x y Hx Hy.
      eapply sorted_app_le; [|exact Hx|exact Hy].
      rewrite firstn_skipn. now apply order_by_distance_sorted.
Qed.

End Nearest.

End ResultFacts.

(** ** The echoed query and the rendered page *)

Section PageFacts.

Context {C : Collaborators}.

Lemma lstrip_split (s : str) :
  exists pre, s = pre ++ lstrip s /\ forallb py_isspace pre = true.
Proof.
  induction s as [|c s (pre & Hs & Hpre)]; [now exists []|]. simpl.
  destruct (py_isspace c) eqn:E.
  - exists (c :: pre). simpl. rewrite E, Hpre. split; [now rewrite <- Hs | reflexivity].
  - now exists [].
Qed.

Lemma lstrip_head (s : str) c :
  hd_error (lstrip s) = Some c -> py_isspace c = false.
Proof.
  induction s as [|x s IH]; simpl; [discriminate|].
  destruct (py_isspace x) eqn:E; [exact IH|].
  simpl. now intros [= <-].
Qed.

Lemma forallb_rev {A} (f : A -> bool) (l : list A) :
  forallb f l = true -> forallb f (rev l) = true.
Proof.
  rewrite !forallb_forall. intros H x Hx. apply H. now apply in_rev.
Qed.

Lemma rstrip_split (s : str) :
  exists post, s = rstrip s ++ post /\ forallb py_isspace post = true.
Proof.
  unfold rstrip. destruct (lstrip_split (rev s)) as (pre & Hs & Hpre).
  exists (rev pre). split; [|now apply forallb_rev].
  rewrite <- rev_app_distr, <- Hs. now rewrite rev_involutive.
Qed.

(** What [strip] does to a string: it removes a run of whitespace at each
    end and leaves a text that neither begins nor ends with whitespace. *)
Lemma strip_split (s : str) :
  exists pre post,
    s = pre ++ strip s ++ post /\
    forallb py_isspace pre = true /\ forallb py_isspace post = true /\
    (forall c, hd_error (strip s) = Some c -> py_isspace c = false) /\
    (forall c, hd_error (rev (strip s)) = Some c -> py_isspace c = false).
Proof.
  destruct (lstrip_split s) as (pre & Hs & Hpre).
  destruct (rstrip_split (lstrip s)) as (post & Hl & Hpost).
  exists pre, post. fold (strip s) in Hl.
  split; [now rewrite <- Hl|]. split; [exact Hpre|]. split; [exact Hpost|].
  split.
  - intros c Hc. apply (lstrip_head s). rewrite Hl.
    destruct (strip s); [discriminate|exact Hc].
  - intros c. unfold strip, rstrip. rewrite rev_involutive.
    apply lstrip_head.
Qed.

(** A page echoes the query of its request. *)
Lemma route_echo r w p : fst (route r w) = Ok p -> query p = echo r.
Proof.
  destruct r as [q|name]; simpl route; intros Hp.
  - destruct (text_query_vector q) as [v|] eqn:Hv.
    + destruct (index_run q w Hv) as (imgs & w' & new & E & _).
      rewrite E in Hp. simpl in Hp. now injection Hp as <-.
    + unfold text_query_vector in Hv.
      destruct (str_truthy (strip (args_get q))) eqn:Ht.
      * destruct (text_encoder (strip (args_get q))) as [|[|xs|xs]] eqn:Eo;
          try discriminate.
        -- rewrite (index_encoder_raises q w Ht Eo) in Hp. discriminate.
        -- rewrite (index_no_vector q w Ht Eo) in Hp. discriminate.
      * rewrite (index_blank q w Ht) in Hp. simpl in Hp. now injection Hp as <-.
  - destruct (neighbors_run name w) as (imgs & w' & new & E & _).
    rewrite E in Hp. simpl in Hp. now injection Hp as <-.
Qed.

(** X11: the text a search page echoes is the query with the whitespace
    at both ends removed and nothing else changed: the raw parameter is
    whitespace, the echoed text, whitespace, and the echoed text neither
    begins nor ends with a whitespace character. *)
Theorem index_echoes_trimmed_query q w p :
  fst (index q w) = Ok p ->
  exists pre t post,
    args_get q = pre ++ t ++ post /\
    query p = Some t /\
    forallb py_isspace pre = true /\ forallb py_isspace post = true /\
    (forall c, hd_error t = Some c -> py_isspace c = false) /\
    (forall c, hd_error (rev t) = Some c -> py_isspace c = false).
Proof.
  intros Hp. pose proof (route_echo (GetIndex q) w Hp) as He. simpl in He.
  destruct (strip_split (args_get q)) as (pre & post & Hs & Hpre & Hpost & Hh & Hl).
  exists pre, (strip (args_get q)), post. now repeat split.
Qed.

(** X12: the search box of a rendered page shows the trimmed query on a
    search page and the four letters [None] on a neighbours page: the
    handler passes [query=None], and the filter [default('')] only
    replaces a variable that is not passed at all. *)
Theorem search_box_text r w p :
  fst (route r w) = Ok p ->
  search_value (HTML_TEMPLATE p)
  = match r with
    | GetIndex q => strip (args_get q)
    | GetNeighbors _ => str_of "None"
    end.
Proof.
  intros Hp. unfold HTML_TEMPLATE. simpl.
  rewrite (route_echo r w Hp). now destruct r.
Qed.

End PageFacts.

(** ** More of the handlers on the sample instance *)

Import Outage.

Lemma fresh_at_start tbl plan : conns_fresh (world_with tbl plan).
Proof. constructor. Qed.

Lemma gallery_names_distinct :
  NoDup (map file_name (image_embeddings healthy)).
Proof.
  vm_compute.
  repeat (constructor;
          [ intros H; repeat (destruct H as [H|H]; [discriminate|]); exact H | ]).
  constructor.
Qed.

Lemma index_driver_protocol_witness :
  log (snd (index (C := collaborators) red_car rejecting))
  = log (snd (index (C := collaborators) red_car rejecting)) ++ log rejecting /\
  stops_at_first_raise
    (protocol (SelectNearest (C := collaborators) (PyList [3; 1]%Z)) Fetchall)
    (driver_calls (log (snd (index (C := collaborators) red_car rejecting)))).
Proof.
  assert (H : log (snd (index (C := collaborators) red_car rejecting))
              = log (snd (index (C := collaborators) red_car rejecting))
                ++ log rejecting) by (vm_compute; reflexivity).
  split; [exact H|].
  exact (index_driver_protocol (C := collaborators) red_car rejecting _ H).
Defined.

Lemma neighbors_driver_protocol_witness :
  log (snd (neighbors (C := collaborators) (str_of "b.png") half_open))
  = log (snd (neighbors (C := collaborators) (str_of "b.png") half_open))
    ++ log half_open /\
  exists second first,
    log (snd (neighbors (C := collaborators) (str_of "b.png") half_open))
    = second ++ first /\
    stops_at_first_raise
      (protocol (SelectEmbedding (C := collaborators) (str_of "b.png")) Fetchone)
      first /\
    ((second = [] /\
      (quiet first ->
       truthy (found_embedding (str_of "b.png") (image_embeddings half_open))
       = false))
     \/
     (quiet first /\
      truthy (found_embedding (str_of "b.png") (image_embeddings half_open))
      = true /\
      stops_at_first_raise
        (protocol (SelectNearestExcept
                     (found_embedding (str_of "b.png") (image_embeddings half_open))
                     (str_of "b.png"))
                  Fetchall)
        second)).
Proof.
  assert (H : log (snd (neighbors (C := collaborators) (str_of "b.png") half_open))
              = log (snd (neighbors (C := collaborators) (str_of "b.png") half_open))
                ++ log half_open) by (vm_compute; reflexivity).
  split; [exact H|].
  exact (neighbors_driver_protocol (C := collaborators) (str_of "b.png") half_open _ H).
Defined.

Lemma encoder_called_once_witness :
  log (snd (route (C := collaborators) (GetIndex red_car) healthy))
  = log (snd (route (C := collaborators) (GetIndex red_car) healthy))
    ++ log healthy /\
  map ev_call
    (encoder_calls (log (snd (route (C := collaborators) (GetIndex red_car) healthy))))
  = [Encode (str_of "red car")].
Proof.
  assert (H : log (snd (route (C := collaborators) (GetIndex red_car) healthy))
              = log (snd (route (C := collaborators) (GetIndex red_car) healthy))
                ++ log healthy) by (vm_compute; reflexivity).
  split; [exact H|].
  exact (encoder_called_once (C := collaborators) (GetIndex red_car) healthy _ H).
Defined.

Lemma request_connections_witness :
  conns_fresh healthy /\
  store_raised
    (log (snd (route (C := collaborators) (GetNeighbors (str_of "b.png")) healthy)))
  = false /\
  conns_fresh (snd (route (C := collaborators) (GetNeighbors (str_of "b.png")) healthy)) /\
  incl (open_conns healthy)
       (open_conns (snd (route (C := collaborators) (GetNeighbors (str_of "b.png")) healthy))) /\
  open_conns (snd (route (C := collaborators) (GetNeighbors (str_of "b.png")) healthy))
  = open_conns healthy.
Proof.
  assert (H : log (snd (route (C := collaborators) (GetNeighbors (str_of "b.png")) healthy))
              = log (snd (route (C := collaborators) (GetNeighbors (str_of "b.png")) healthy))
                ++ log healthy) by (vm_compute; reflexivity).
  destruct (@request_connections collaborators
              (GetNeighbors (str_of "b.png")) healthy _
              (fresh_at_start gallery no_fault) H) as (Hf & Hi & Hq).
  split; [apply fresh_at_start|]. split; [reflexivity|].
  split; [exact Hf|]. split; [exact Hi|]. apply Hq. reflexivity.
Defined.

Lemma results_are_table_names_witness :
  In (str_of "d.png")
     (map str_of ["d.png"; "b.png"; "c.png"; "a.png"; "e.png"]%string) /\
  exists row,
    In row (eligible (GetIndex red_car) (image_embeddings healthy)) /\
    file_name row = str_of "d.png".
Proof.
  assert (Hin : In (str_of "d.png")
                   (map str_of ["d.png"; "b.png"; "c.png"; "a.png"; "e.png"]%string))
    by (left; reflexivity).
  split; [exact Hin|].
  apply (results_are_table_names (C := collaborators) (GetIndex red_car) healthy
           (p := {| images := map str_of ["d.png"; "b.png"; "c.png"; "a.png"; "e.png"]%string;
                    query := Some (str_of "red car") |}));
    [vm_compute; reflexivity | exact Hin].
Defined.

Lemma distinct_names_give_distinct_results_witness :
  NoDup (map file_name (image_embeddings healthy)) /\
  NoDup (map str_of ["c.png"; "d.png"; "a.png"; "e.png"]%string).
Proof.
  split; [apply gallery_names_distinct|].
  apply (distinct_names_give_distinct_results (C := collaborators)
           (GetNeighbors (str_of "b.png")) healthy
           (p := {| images := map str_of ["c.png"; "d.png"; "a.png"; "e.png"]%string;
                    query := None |}));
    [apply gallery_names_distinct | vm_compute; reflexivity].
Defined.

Lemma small_table_is_returned_whole_witness :
  available healthy /\
  length (eligible (GetIndex red_car) (image_embeddings healthy)) <= 30 /\
  Permutation
    (map str_of ["d.png"; "b.png"; "c.png"; "a.png"; "e.png"]%string)
    (map file_name (eligible (GetIndex red_car) (image_embeddings healthy))).
Proof.
  assert (Hlen : length (eligible (GetIndex red_car) (image_embeddings healthy)) <= 30)
    by (vm_compute; lia).
  split; [apply no_fault_available|]. split; [exact Hlen|].
  apply (@small_table_is_returned_whole collaborators (GetIndex red_car) healthy
           ({| images := map str_of ["d.png"; "b.png"; "c.png"; "a.png"; "e.png"]%string;
                    query := Some (str_of "red car") |}));
    [apply no_fault_available | discriminate | exact Hlen | vm_compute; reflexivity].
Defined.

Lemma results_are_nearest_witness :
  query_vector (C := collaborators) (GetIndex red_car) (image_embeddings crowded)
  = Some (PyList [3; 1]%Z) /\
  nearest_cut (C := collaborators) (PyList [3; 1]%Z)
    (eligible (GetIndex red_car) (image_embeddings crowded))
    (images crowd_page).
Proof.
  split; [reflexivity|].
  apply (@results_are_nearest collaborators Zleb_total Zleb_trans
           (GetIndex red_car) crowded (PyList [3; 1]%Z) crowd_page);
    vm_compute; reflexivity.
Defined.

Lemma index_echoes_trimmed_query_witness :
  fst (index (C := collaborators) (Some (str_of "  red car ")) healthy)
  = Ok {| images := map str_of ["d.png"; "b.png"; "c.png"; "a.png"; "e.png"]%string;
          query := Some (str_of "red car") |} /\
  exists pre t post,
    args_get (Some (str_of "  red car ")) = pre ++ t ++ post /\
    Some (str_of "red car") = Some t /\
    forallb py_isspace pre = true /\ forallb py_isspace post = true /\
    (forall c, hd_error t = Some c -> py_isspace c = false) /\
    (forall c, hd_error (rev t) = Some c -> py_isspace c = false).
Proof.
  assert (Hp : fst (index (C := collaborators) (Some (str_of "  red car ")) healthy)
               = Ok {| images := map str_of ["d.png"; "b.png"; "c.png"; "a.png"; "e.png"]%string;
                       query := Some (str_of "red car") |})
    by (vm_compute; reflexivity).
  split; [exact Hp|].
  exact (@index_echoes_trimmed_query collaborators _ healthy _ Hp).
Defined.

Lemma search_box_text_witness :
  fst (route (C := collaborators) (GetNeighbors (str_of "b.png")) healthy)
  = Ok {| images := map str_of ["c.png"; "d.png"; "a.png"; "e.png"]%string;
          query := None |} /\
  search_value
    (HTML_TEMPLATE {| images := map str_of ["c.png"; "d.png"; "a.png"; "e.png"]%string;
                      query := None |})
  = str_of "None".
Proof.
  assert (Hp : fst (route (C := collaborators) (GetNeighbors (str_of "b.png")) healthy)
               = Ok {| images := map str_of ["c.png"; "d.png"; "a.png"; "e.png"]%string;
                       query := None |})
    by (vm_compute; reflexivity).
  split; [exact Hp|].
  exact (@search_box_text collaborators (GetNeighbors (str_of "b.png")) healthy _ Hp).
Defined.


(** C5 fails as stated: with a store that returns rows at the same
    distance latest first, [c.png] comes before [b.png] although both are
    equally far from the query and [b.png] is the earlier row. *)
Lemma tied_rows_need_not_keep_row_order :
  query_vector (C := Lifo.collaborators) (GetIndex red_car)
    (image_embeddings Lifo.healthy) = Some (PyList [3; 1]%Z) /\
  fst (route (C := Lifo.collaborators) (GetIndex red_car) Lifo.healthy)
  = Ok {| images := map str_of ["d.png"; "c.png"; "b.png"; "a.png"; "e.png"]%string;
          query := Some (str_of "red car") |} /\
  ~ ranked (C := Lifo.collaborators) (PyList [3; 1]%Z)
      (eligible (GetIndex red_car) (image_embeddings Lifo.healthy))
      (map str_of ["d.png"; "c.png"; "b.png"; "a.png"; "e.png"]%string).
Proof.
  split; [reflexivity|]. split; [vm_compute; reflexivity|].
  intros (rows & Hmap & Hincl & _ & Hties).
  destruct rows as [|[n1 d1] [|[n2 d2] [|[n3 d3] [|[n4 d4] [|[n5 d5] [|x rows]]]]]];
    try discriminate Hmap.
  injection Hmap as <- <- <- <- <-.
  assert (H1 := Hincl _ (or_introl eq_refl)).
  assert (H2 := Hincl _ (or_intror (or_introl eq_refl))).
  assert (H3 := Hincl _ (or_intror (or_intror (or_introl eq_refl)))).
  assert (H4 := Hincl _ (or_intror (or_intror (or_intror (or_introl eq_refl))))).
  assert (H5 := Hincl _ (or_intror (or_intror (or_intror (or_intror (or_introl eq_refl)))))).
  clear Hincl.
  vm_compute in H1, H2, H3, H4, H5.
  assert (E1 : d1 = (-13)%Z) by (repeat destruct H1 as [H1|H1]; congruence || contradiction).
  assert (E2 : d2 = (-11)%Z) by (repeat destruct H2 as [H2|H2]; congruence || contradiction).
  assert (E3 : d3 = (-11)%Z) by (repeat destruct H3 as [H3|H3]; congruence || contradiction).
  assert (E4 : d4 = (-3)%Z) by (repeat destruct H4 as [H4|H4]; congruence || contradiction).
  assert (E5 : d5 = 0%Z) by (repeat destruct H5 as [H5|H5]; congruence || contradiction).
  subst. destruct (Hties (-11)%Z) as [k Hk].
  destruct k as [|[|[|k]]]; vm_compute in Hk; discriminate Hk.
Qed.
